(** * goqueue: a bounded FIFO queue on a resizable ring buffer

    Shallow embedding of [queue.go] and the properties of its
    specification.

    Modelling decisions.
    - Go's [int] is modelled as [Z].  Every arithmetic expression of the
      source ([count*2], [count*4], [tail+1], [head+i], [count++],
      [count--]) is applied to values bounded by [4 * len(buf)], and the
      length of a slice of [interface{}] values is bounded by the address
      space, so no expression leaves the range of [int]; the arithmetic is
      therefore written on [Z] directly ([arithmetic_in_int_range] below
      states the bound for 64-bit [int]).  [%] is Go's truncated remainder
      ([Z.rem]) and panics on a zero divisor.
    - [[]interface{}] is a [list elem]; [elem] is the type of dynamic
      values and [nilv] the [nil] interface value.  Index expressions,
      slice expressions and [make] panic out of range, as the Go runtime
      does.
    - The methods have a pointer receiver: they are computations in a
      state-and-panic monad over the [Queue] record.  A panic carries the
      state at the point where it was raised.
    - The mutex [m] serialises the methods; the model of the buffer is
      the sequential behaviour of one method call at a time, and
      [spawned] counts the [go func() { q.c <- 1 }()] statements executed
      so far.
    - [Wait], [Stop] and the wake-up goroutine of [Add] do not take the
      mutex: they are goroutines over the one unbuffered channel [c],
      run by a scheduler that fires one channel event at a time. *)

From Stdlib Require Import ZArith Lia.
From stdpp Require Import base numbers list list_numbers strings.

Local Open Scope Z_scope.

Definition minQueueLen : Z := 16.

(** Panics: [panic("...")] calls of the source, and panics of the Go
    runtime (index or slice bounds out of range, negative [make] length,
    integer division by zero). *)
Inductive panic : Type :=
| PanicMsg (msg : string)
| RuntimeError (msg : string).

(** The error conditions the specification names. *)
Definition is_EmptyQueue (p : panic) : bool :=
  match p with
  | PanicMsg msg =>
      bool_decide (msg = "queue: Peek() called on empty queue"%string)
      || bool_decide (msg = "queue: Remove() called on empty queue"%string)
  | RuntimeError _ => false
  end.

Definition is_IndexOutOfRange (p : panic) : bool :=
  match p with
  | PanicMsg msg =>
      bool_decide (msg = "queue: Get() called with index out of range"%string)
  | RuntimeError _ => false
  end.

(** Dynamic values for the concrete scenarios: the [nil] interface value
    and integers. *)
Inductive value : Type :=
| Nil
| Int (n : Z).

(** ** The channel, [Wait] and [Stop] *)

(** A goroutine, as the channel operations it still has to perform:
    [x, ok := <-q.c], [q.c <- v], [close(q.c)], then its return value
    ([None] is [nil], or no value) or the panic it died of. *)
Inductive goroutine : Type :=
| Recv (k : Z -> bool -> goroutine)
| Send (v : Z) (k : goroutine)
| Close (k : goroutine)
| Return (err : option string)
| Panicked (msg : string).

Definition Stopped : option string := Some "Queue Stopped"%string.

Definition Wait : goroutine :=
  Recv (fun x ok => if ok && (x =? 1) then Return None else Return Stopped).

Definition Stop : goroutine :=
  Send 0 (Close (Return None)).

(** [go func() { q.c <- 1 }()], launched by a successful [Add]. *)
Definition signal : goroutine :=
  Send 1 (Return None).

(** The channel made by [New] and the goroutines started so far, in the
    order they were started. *)
Record system : Type := mkSystem {
  closed : bool;
  pool : list goroutine
}.


Definition is_panicked (g : goroutine) : bool :=
  match g with Panicked _ => true | _ => false end.

(** An unrecovered panic in any goroutine ends the process. *)
Definition crashed (c : system) : bool := existsb is_panicked (pool c).

Inductive call : Type :=
| CallWait
| CallStop
| CallSignal.

Definition body (k : call) : goroutine :=
  match k with
  | CallWait => Wait
  | CallStop => Stop
  | CallSignal => signal
  end.

(** What the scheduler can do: start a goroutine; on the open channel,
    pair sender [s] with receiver [r]; let goroutine [i] take a step of
    its own ([close], or a receive or send on the closed channel). *)
Inductive action : Type :=
| Call (k : call)
| Sync (s r : nat)
| Solo (i : nat).

(** One event, as Go's unbuffered channels have it.  On the open channel
    a send and a receive complete only together, the receiver getting
    the value and [ok = true]; [close] closes the open channel and panics
    on the closed one; on the closed channel a receive returns [0] and
    [ok = false] at once and a send panics.  [None]: the action is not
    enabled. *)
Definition fire (c : system) (a : action) : option system :=
  if crashed c then None else
  match a with
  | Call k => Some (mkSystem (closed c) (pool c ++ [body k]))
  | Sync s r =>
      if closed c then None else
      match pool c !! s, pool c !! r with
      | Some (Send v ks), Some (Recv kr) =>
          Some (mkSystem false (<[r := kr v true]> (<[s := ks]> (pool c))))
      | _, _ => None
      end
  | Solo i =>
      match pool c !! i with
      | Some (Close k) =>
          if closed c
          then Some (mkSystem true
                       (<[i := Panicked "close of closed channel"]> (pool c)))
          else Some (mkSystem true (<[i := k]> (pool c)))
      | Some (Recv k) =>
          if closed c then Some (mkSystem true (<[i := k 0 false]> (pool c)))
          else None
      | Some (Send _ _) =>
          if closed c
          then Some (mkSystem true
                       (<[i := Panicked "send on closed channel"]> (pool c)))
          else None
      | _ => None
      end
  end.

Fixpoint exec (sched : list action) (c : system) : option system :=
  match sched with
  | [] => Some c
  | a :: sched' =>
      match fire c a with
      | Some c' => exec sched' c'
      | None => None
      end
  end.


(** No [Wait] is called in the schedule. *)
Definition no_Wait (sched : list action) : bool :=
  forallb (fun a => match a with Call CallWait => false | _ => true end) sched.

Section Queue.

Context {elem : Type}.
Variable nilv : elem.

(** ** Slices *)

Definition len (s : list elem) : Z := Z.of_nat (length s).

(** [s[i]] *)
Definition index (s : list elem) (i : Z) : option elem :=
  if decide (0 <= i) then s !! Z.to_nat i else None.

(** [s[i] = v] *)
Definition store (s : list elem) (i : Z) (v : elem) : option (list elem) :=
  if decide (0 <= i < len s) then Some (<[Z.to_nat i := v]> s) else None.

(** [s[lo:hi]]; every slice of the program has its capacity equal to its
    length. *)
Definition slice (s : list elem) (lo hi : Z) : option (list elem) :=
  if decide (0 <= lo <= hi /\ hi <= len s)
  then Some (take (Z.to_nat (hi - lo)) (drop (Z.to_nat lo) s))
  else None.

(** [make([]interface{}, n)] *)
Definition make (n : Z) : option (list elem) :=
  if decide (0 <= n) then Some (replicate (Z.to_nat n) nilv) else None.

(** [copy(dst, src)]: the updated destination and the number of elements
    copied, the minimum of the two lengths. *)
Definition copy (dst src : list elem) : list elem * Z :=
  let n := Nat.min (length dst) (length src) in
  (take n src ++ drop n dst, Z.of_nat n).

(** [a % b] *)
Definition go_rem (a b : Z) : option Z :=
  if decide (b = 0) then None else Some (Z.rem a b).

(** ** The queue *)

Record Queue : Type := mkQueue {
  buf : list elem;
  head : Z;
  tail : Z;
  count : Z;
  max_len : Z;
  spawned : nat
}.

Inductive outcome (A : Type) : Type :=
| Ok (a : A) (q : Queue)
| Panic (p : panic) (q : Queue).
Arguments Ok {A} a q.
Arguments Panic {A} p q.

Definition M (A : Type) : Type := Queue -> outcome A.

#[global] Instance M_ret : MRet M := fun A (a : A) q => Ok a q.

#[global] Instance M_bind : MBind M := fun A B (k : A -> M B) (m : M A) q =>
  match m q with
  | Ok a q' => k a q'
  | Panic p q' => Panic p q'
  end.

Definition get : M Queue := fun q => Ok q q.

Definition raise {A : Type} (p : panic) : M A := fun q => Panic p q.

(** A runtime-checked operation. *)
Definition rt {A : Type} (msg : string) (o : option A) : M A :=
  match o with
  | Some a => mret a
  | None => raise (RuntimeError msg)
  end.

Definition set_buf (b : list elem) : M unit := fun q =>
  Ok tt (mkQueue b (head q) (tail q) (count q) (max_len q) (spawned q)).

Definition set_head (h : Z) : M unit := fun q =>
  Ok tt (mkQueue (buf q) h (tail q) (count q) (max_len q) (spawned q)).

Definition set_tail (t : Z) : M unit := fun q =>
  Ok tt (mkQueue (buf q) (head q) t (count q) (max_len q) (spawned q)).

Definition set_count (c : Z) : M unit := fun q =>
  Ok tt (mkQueue (buf q) (head q) (tail q) c (max_len q) (spawned q)).

(** [go func() { q.c <- 1 }()] *)
Definition spawn_signal : M unit := fun q =>
  Ok tt (mkQueue (buf q) (head q) (tail q) (count q) (max_len q) (S (spawned q))).

Definition index_msg : string := "index out of range".
Definition slice_msg : string := "slice bounds out of range".
Definition make_msg : string := "makeslice: len out of range".
Definition div_msg : string := "integer divide by zero".

(** [New]; the channel and the mutex are fresh. *)
Definition New (max_len : Z) : Queue :=
  mkQueue (replicate (Z.to_nat minQueueLen) nilv) 0 0 0 max_len 0.

Definition Length : M Z :=
  q ← get; mret (count q).

Definition resize : M unit :=
  q ← get;
  newBuf ← rt make_msg (make (count q * 2));
  newBuf ← (if decide (tail q > head q) then
              s ← rt slice_msg (slice (buf q) (head q) (tail q));
              mret (copy newBuf s).1
            else
              s ← rt slice_msg (slice (buf q) (head q) (len (buf q)));
              let '(newBuf, n) := copy newBuf s in
              d ← rt slice_msg (slice newBuf n (len newBuf));
              s' ← rt slice_msg (slice (buf q) 0 (tail q));
              mret (take (Z.to_nat n) newBuf ++ (copy d s').1));
  set_head 0;;
  set_tail (count q);;
  set_buf newBuf.

Definition Add (e : elem) : M unit :=
  q ← get;
  if decide (count q >= max_len q) then mret tt else
  (if decide (count q = len (buf q)) then resize else mret tt);;
  q ← get;
  b ← rt index_msg (store (buf q) (tail q) e);
  set_buf b;;
  q ← get;
  t ← rt div_msg (go_rem (tail q + 1) (len (buf q)));
  set_tail t;;
  set_count (count q + 1);;
  spawn_signal.

Definition Peek : M elem :=
  q ← get;
  if decide (count q <= 0) then
    raise (PanicMsg "queue: Peek() called on empty queue")
  else
    rt index_msg (index (buf q) (head q)).

Definition Get (i : Z) : M elem :=
  q ← get;
  if decide (i < 0 \/ i >= count q) then
    raise (PanicMsg "queue: Get() called with index out of range")
  else
    j ← rt div_msg (go_rem (head q + i) (len (buf q)));
    rt index_msg (index (buf q) j).

Definition Remove : M unit :=
  q ← get;
  if decide (count q <= 0) then
    raise (PanicMsg "queue: Remove() called on empty queue")
  else
    b ← rt index_msg (store (buf q) (head q) nilv);
    set_buf b;;
    q ← get;
    h ← rt div_msg (go_rem (head q + 1) (len (buf q)));
    set_head h;;
    set_count (count q - 1);;
    q ← get;
    if decide (len (buf q) > minQueueLen /\ count q * 4 = len (buf q))
    then resize else mret tt.

Definition PeekAndRemove : M elem :=
  q ← get;
  if decide (count q <= 0) then
    raise (PanicMsg "queue: Remove() called on empty queue")
  else
    h ← rt index_msg (index (buf q) (head q));
    b ← rt index_msg (store (buf q) (head q) nilv);
    set_buf b;;
    q ← get;
    h' ← rt div_msg (go_rem (head q + 1) (len (buf q)));
    set_head h';;
    set_count (count q - 1);;
    q ← get;
    (if decide (len (buf q) > minQueueLen /\ count q * 4 = len (buf q))
     then resize else mret tt);;
    mret h.

(** ** Data-model invariants and the elements held *)

(** The invariants of the data model: the buffer length is the minimum
    length times a power of two, the cursors are inside the buffer, the
    live slots run from [head] to [tail] modulo the length, and the count
    does not exceed the (non-negative part of the) limit. *)
Record wf (q : Queue) : Prop := mkWf {
  wf_len : exists k : nat, len (buf q) = minQueueLen * 2 ^ Z.of_nat k;
  wf_head : 0 <= head q < len (buf q);
  wf_count : 0 <= count q <= len (buf q);
  wf_tail : tail q = (head q + count q) `mod` len (buf q);
  wf_limit : count q <= Z.max 0 (max_len q)
}.

(** The [c] slots of buffer [b] read from cursor [h], wrapping around. *)
Definition ring (b : list elem) (h c : Z) : list elem :=
  (fun i => default nilv (b !! Z.to_nat ((h + i) `mod` len b))) <$> seqZ 0 c.

(** The live slots, oldest first. *)
Definition held (q : Queue) : list elem := ring (buf q) (head q) (count q).

(** ** Client programs *)

Inductive op : Type :=
| OpAdd (e : elem)
| OpRemove
| OpPeekAndRemove.

(** One client step and the element it takes out of the queue: [Remove]
    is preceded by a [Peek], as the source's comment advises. *)
Definition step (o : op) : M (list elem) :=
  match o with
  | OpAdd e => Add e;; mret []
  | OpRemove => h ← Peek; Remove;; mret [h]
  | OpPeekAndRemove => h ← PeekAndRemove; mret [h]
  end.

Fixpoint run (ops : list op) : M (list elem) :=
  match ops with
  | [] => mret []
  | o :: ops' => r ← step o; rs ← run ops'; mret (r ++ rs)
  end.

(** The elements a program adds, in order, and the number of removals. *)
Fixpoint adds (ops : list op) : list elem :=
  match ops with
  | [] => []
  | OpAdd e :: ops' => e :: adds ops'
  | _ :: ops' => adds ops'
  end.

Fixpoint removals (ops : list op) : nat :=
  match ops with
  | [] => O
  | OpAdd _ :: ops' => removals ops'
  | _ :: ops' => S (removals ops')
  end.

(** No removal is issued on an empty queue, when [n] elements are held
    at the start. *)
Fixpoint balanced (n : nat) (ops : list op) : bool :=
  match ops with
  | [] => true
  | OpAdd _ :: ops' => balanced (S n) ops'
  | _ :: ops' => match n with O => false | S n' => balanced n' ops' end
  end.

(** Reference model, after the specification's words: a bounded FIFO
    list.  An [Add] beyond the limit is dropped, a removal takes the
    oldest element and fails on the empty list.  The result is the
    elements taken out and the elements still held, both in insertion
    order. *)
Fixpoint fifo_run (limit : Z) (ops : list op) (l : list elem)
  : option (list elem * list elem) :=
  match ops with
  | [] => Some ([], l)
  | OpAdd e :: ops' =>
      fifo_run limit ops' (if decide (len l >= limit) then l else l ++ [e])
  | _ :: ops' =>
      match l with
      | [] => None
      | x :: l' =>
          match fifo_run limit ops' l' with
          | Some (out, l'') => Some (x :: out, l'')
          | None => None
          end
      end
  end.

(** [Peek] followed by [Remove]. *)
Definition PeekThenRemove : M elem :=
  h ← Peek; Remove;; mret h.

(** The state in which a call leaves the queue, whether it returns or
    panics. *)
Definition final_state {A : Type} (o : outcome A) : Queue :=
  match o with
  | Ok _ q => q
  | Panic _ q => q
  end.

(** Two calls end alike: the same result in the same state, or a panic
    in the same state that is the same panic or the same EmptyQueue
    condition ([Peek] and [PeekAndRemove] word its message differently). *)
Definition same_outcome {A : Type} (o1 o2 : outcome A) : Prop :=
  match o1, o2 with
  | Ok a1 q1, Ok a2 q2 => a1 = a2 /\ q1 = q2
  | Panic p1 q1, Panic p2 q2 =>
      q1 = q2 /\ (p1 = p2 \/ (is_EmptyQueue p1 = true /\ is_EmptyQueue p2 = true))
  | _, _ => False
  end.

(** The program that adds the elements [es] and then removes [k] times. *)
Definition fill_then_remove (es : list elem) (k : nat) : list op :=
  (OpAdd <$> es) ++ replicate k OpRemove.

(** Every slot outside the live range holds [nil]: the queue keeps no
    reference to an element it no longer holds. *)
Definition clean (q : Queue) : Prop :=
  forall i, count q <= i < len (buf q) ->
    index (buf q) ((head q + i) `mod` len (buf q)) = Some nilv.

(** The buffer is at its minimum length, or it is less than four times
    the number of elements held and at most twice the limit minus two. *)
Definition compact (q : Queue) : Prop :=
  len (buf q) = minQueueLen \/
  (len (buf q) < 4 * count q /\ len (buf q) <= 2 * (max_len q - 1)).

(** ** Arithmetic and list helpers *)

Lemma mod_wrap (x n : Z) :
  0 <= x < 2 * n -> x `mod` n = if decide (x < n) then x else x - n.
Proof.
  intros Hx. destruct (decide (x < n)) as [Hlt|Hge].
  - apply Z.mod_small. lia.
  - rewrite <- (Z.mod_small (x - n) n) by lia.
    replace x with (x - n + 1 * n) at 1 by lia.
    apply Z.mod_add. lia.
Qed.

Lemma rem_wrap (x n : Z) :
  0 <= x < 2 * n -> Z.rem x n = if decide (x < n) then x else x - n.
Proof.
  intros Hx. rewrite Z.rem_mod_nonneg by lia. by apply mod_wrap.
Qed.

Lemma ring_length (b : list elem) (h c : Z) :
  length (ring b h c) = Z.to_nat c.
Proof. unfold ring. by rewrite length_fmap, length_seqZ. Qed.

Lemma ring_lookup (b : list elem) (h c : Z) (i : nat) :
  0 <= h < len b -> Z.of_nat i < c <= len b ->
  ring b h c !! i = b !! Z.to_nat ((h + Z.of_nat i) `mod` len b).
Proof.
  intros Hh Hi. unfold ring.
  rewrite list_lookup_fmap, lookup_seqZ_lt by lia. simpl.
  rewrite Z.add_0_l.
  destruct (lookup_lt_is_Some_2 b (Z.to_nat ((h + Z.of_nat i) `mod` len b)))
    as [x Hx].
  - unfold len in *. rewrite mod_wrap by lia. case_decide; lia.
  - by rewrite Hx.
Qed.

Lemma ring_rot (b : list elem) (h c : Z) :
  0 <= h < len b -> 0 <= c <= len b ->
  ring b h c = take (Z.to_nat c) (drop (Z.to_nat h) b ++ take (Z.to_nat h) b).
Proof.
  intros Hh Hc. apply list_eq. intros i.
  destruct (decide (Z.of_nat i < c)) as [Hi|Hi].
  - rewrite ring_lookup by lia. rewrite lookup_take_lt by lia.
    unfold len in *. rewrite mod_wrap by lia. case_decide.
    + rewrite lookup_app_l by (rewrite length_drop; lia).
      rewrite lookup_drop. f_equal. lia.
    + rewrite lookup_app_r by (rewrite length_drop; lia).
      rewrite length_drop, lookup_take_lt by lia. f_equal. lia.
  - rewrite !lookup_ge_None_2; [done| |].
    + rewrite length_take. lia.
    + rewrite ring_length. lia.
Qed.

Lemma len_insert (b : list elem) (i : nat) (v : elem) :
  len (<[i := v]> b) = len b.
Proof. unfold len. by rewrite length_insert. Qed.

Lemma ring_insert_tail (b : list elem) (h c : Z) (e : elem) :
  0 <= h < len b -> 0 <= c < len b ->
  ring (<[Z.to_nat ((h + c) `mod` len b) := e]> b) h (c + 1) = ring b h c ++ [e].
Proof.
  intros Hh Hc. apply list_eq. intros i.
  destruct (decide (Z.of_nat i < c + 1)) as [Hi|Hi].
  - rewrite ring_lookup by (rewrite len_insert; lia). rewrite len_insert.
    destruct (decide (Z.of_nat i = c)) as [Heq|Hne].
    + rewrite Heq, list_lookup_insert_eq.
      * rewrite lookup_app_r by (rewrite ring_length; lia).
        rewrite ring_length. by replace (i - Z.to_nat c)%nat with O by lia.
      * unfold len in *. rewrite mod_wrap by lia. case_decide; lia.
    + rewrite list_lookup_insert_ne.
      * rewrite lookup_app_l by (rewrite ring_length; lia).
        by rewrite ring_lookup by lia.
      * unfold len in *. rewrite !mod_wrap by lia. repeat case_decide; lia.
  - rewrite !lookup_ge_None_2; [done| |].
    + rewrite length_app, ring_length. simpl. lia.
    + rewrite ring_length. lia.
Qed.

Lemma ring_remove_head (b : list elem) (h c : Z) (v : elem) :
  0 <= h < len b -> 0 < c <= len b ->
  ring (<[Z.to_nat h := v]> b) ((h + 1) `mod` len b) (c - 1) = drop 1 (ring b h c).
Proof.
  intros Hh Hc. apply list_eq. intros i. rewrite lookup_drop.
  destruct (decide (Z.of_nat i < c - 1)) as [Hi|Hi].
  - assert (0 <= (h + 1) `mod` len b < len b) as Hh'.
    { rewrite mod_wrap by lia. case_decide; lia. }
    rewrite ring_lookup by (rewrite len_insert; lia). rewrite len_insert.
    rewrite ring_lookup by lia.
    rewrite list_lookup_insert_ne.
    + f_equal. f_equal. unfold len in *. rewrite !mod_wrap; repeat case_decide; lia.
    + unfold len in *. rewrite !mod_wrap; repeat case_decide; lia.
  - rewrite !lookup_ge_None_2; [done| |]; rewrite ring_length; lia.
Qed.

Lemma ring_head (b : list elem) (h c : Z) :
  0 <= h < len b -> 0 < c <= len b ->
  ring b h c !! O = b !! Z.to_nat h.
Proof.
  intros Hh Hc. rewrite ring_lookup by lia.
  f_equal. f_equal. rewrite mod_wrap by lia. case_decide; lia.
Qed.

Lemma slice_ok (s : list elem) (lo hi : Z) :
  0 <= lo <= hi -> hi <= len s ->
  slice s lo hi = Some (take (Z.to_nat (hi - lo)) (drop (Z.to_nat lo) s)).
Proof. intros. unfold slice. by rewrite decide_True by lia. Qed.

Lemma make_ok (n : Z) :
  0 <= n -> make n = Some (replicate (Z.to_nat n) nilv).
Proof. intros. unfold make. by rewrite decide_True by lia. Qed.

#[local] Arguments copy : simpl never.
#[local] Arguments slice : simpl never.
#[local] Arguments make : simpl never.
#[local] Arguments store : simpl never.
#[local] Arguments index : simpl never.
#[local] Arguments go_rem : simpl never.

Ltac llia := unfold len in *; simpl in *; lia.

Ltac run_monad :=
  unfold mbind, M_bind, mret, M_ret, get, raise, rt,
    set_buf, set_head, set_tail, set_count, spawn_signal; simpl.

Lemma resize_spec (q : Queue) :
  0 <= head q < len (buf q) -> 0 <= count q <= len (buf q) ->
  tail q = (head q + count q) `mod` len (buf q) ->
  resize q = Ok tt (mkQueue (held q ++ replicate (Z.to_nat (count q)) nilv)
                      0 (count q) (count q) (max_len q) (spawned q)).
Proof.
  intros Hh Hc Ht. unfold held. rewrite ring_rot by lia.
  destruct q as [b h t c m s]. simpl in *.
  rewrite mod_wrap in Ht by lia.
  unfold resize. run_monad. rewrite make_ok by lia. run_monad.
  destruct (decide (t > h)) as [Hth|Hth].
  - assert (t - h = c /\ h + c < len b) as [Htc Hlt] by (case_decide; lia).
    rewrite slice_ok by lia. run_monad. rewrite Htc.
    rewrite length_replicate, length_take, length_drop.
    replace (Z.to_nat (c * 2) `min` (Z.to_nat c `min` (length b - Z.to_nat h)))%nat
      with (Z.to_nat c) by llia.
    rewrite take_idemp, drop_replicate.
    rewrite take_app_le by (rewrite length_drop; llia).
    do 4 f_equal. lia.
  - rewrite slice_ok by lia. run_monad.
    rewrite (take_ge (drop _ _)) by (rewrite length_drop; llia).
    rewrite !length_replicate, !length_drop.
    destruct (decide (c = 0)) as [->|Hc0].
    + simpl. rewrite slice_ok by (case_decide; lia). by run_monad.
    + assert (h + c >= len b) as Hw by (case_decide; lia).
      rewrite decide_False in Ht by lia.
      replace (Z.to_nat (c * 2) `min` (length b - Z.to_nat h))%nat
        with (length b - Z.to_nat h)%nat by llia.
      rewrite (take_ge (drop _ _)) by (rewrite length_drop; lia).
      rewrite drop_replicate.
      set (k := (length b - Z.to_nat h)%nat).
      assert (len (drop (Z.to_nat h) b ++ replicate (Z.to_nat (c * 2) - k) nilv)
              = c * 2) as Hlen.
      { unfold len. rewrite length_app, length_drop, length_replicate. llia. }
      assert (length (drop (Z.to_nat h) b) = k) as Hk by (rewrite length_drop; done).
      rewrite Hlen, Nat2Z.id.
      rewrite slice_ok by (rewrite ?Hlen; llia). run_monad.
      rewrite slice_ok by llia. run_monad. rewrite ?Nat2Z.id.
      rewrite take_app_length', drop_app_length' by (symmetry; exact Hk).
      rewrite (take_ge (replicate _ _)) by (rewrite length_replicate; lia).
      rewrite length_replicate, length_take, drop_0, drop_replicate.
      replace ((Z.to_nat (c * 2) - k) `min` (Z.to_nat (t - 0) `min` length b))%nat
        with (Z.to_nat t) by llia.
      rewrite take_take, (take_app_ge (drop _ _)) by (rewrite Hk; llia).
      rewrite Hk, take_take, <- (assoc_L (++)).
      subst k. do 4 f_equal; f_equal; llia.
Qed.

Lemma store_ok (s : list elem) (i : Z) (v : elem) :
  0 <= i < len s -> store s i v = Some (<[Z.to_nat i := v]> s).
Proof. intros. unfold store. by rewrite decide_True by lia. Qed.

Lemma go_rem_ok (a b : Z) : b <> 0 -> go_rem a b = Some (Z.rem a b).
Proof. intros. unfold go_rem. by rewrite decide_False by lia. Qed.

Lemma index_ok (s : list elem) (i : Z) :
  0 <= i -> index s i = s !! Z.to_nat i.
Proof. intros. unfold index. by rewrite decide_True by lia. Qed.

Lemma held_length (q : Queue) : length (held q) = Z.to_nat (count q).
Proof. apply ring_length. Qed.

Lemma len_held (q : Queue) : 0 <= count q -> len (held q) = count q.
Proof. intros. unfold len. rewrite held_length. lia. Qed.

(** *** [Add] *)

Lemma Add_full (e : elem) (q : Queue) :
  count q >= max_len q -> Add e q = Ok tt q.
Proof. intros H. unfold Add. run_monad. by rewrite decide_True by lia. Qed.

Lemma Add_no_grow (e : elem) (q : Queue) :
  count q < max_len q -> count q <> len (buf q) ->
  0 <= tail q < len (buf q) ->
  Add e q = Ok tt (mkQueue (<[Z.to_nat (tail q) := e]> (buf q)) (head q)
                     (Z.rem (tail q + 1) (len (buf q))) (count q + 1)
                     (max_len q) (S (spawned q))).
Proof.
  intros Hm Hc Ht. unfold Add. run_monad.
  rewrite decide_False by lia. rewrite decide_False by lia. run_monad.
  rewrite store_ok by lia. run_monad.
  rewrite len_insert, go_rem_ok by lia. by run_monad.
Qed.

Lemma Add_grow (e : elem) (q : Queue) :
  count q < max_len q -> count q = len (buf q) -> 1 < count q ->
  0 <= head q < len (buf q) ->
  tail q = (head q + count q) `mod` len (buf q) ->
  Add e q = Ok tt (mkQueue
                     (<[Z.to_nat (count q) := e]>
                        (held q ++ replicate (Z.to_nat (count q)) nilv))
                     0 (count q + 1) (count q + 1)
                     (max_len q) (S (spawned q))).
Proof.
  intros Hm Hc Hpos Hh Ht. unfold Add. run_monad.
  rewrite decide_False by lia. rewrite decide_True by lia.
  rewrite resize_spec by lia. run_monad.
  assert (len (held q ++ replicate (Z.to_nat (count q)) nilv) = 2 * count q) as Hl.
  { unfold len. rewrite length_app, held_length, length_replicate. lia. }
  rewrite store_ok by lia. run_monad.
  rewrite len_insert, Hl, go_rem_ok by lia. run_monad.
  rewrite rem_wrap by lia. by rewrite decide_True by lia.
Qed.

Lemma wf_len_ge (q : Queue) : wf q -> minQueueLen <= len (buf q).
Proof.
  intros [[k Hk] _ _ _ _]. rewrite Hk.
  assert (0 < 2 ^ Z.of_nat k) by (apply Z.pow_pos_nonneg; lia).
  unfold minQueueLen. lia.
Qed.

Lemma ring_prefix (l : list elem) (n : nat) (c : Z) :
  c = len l -> (0 < c + Z.of_nat n) ->
  ring (l ++ replicate n nilv) 0 c = l.
Proof.
  intros -> Hn.
  assert (len (l ++ replicate n nilv) = len l + Z.of_nat n) as Hl.
  { unfold len. rewrite length_app, length_replicate. lia. }
  rewrite ring_rot by (rewrite Hl; llia).
  simpl. rewrite drop_0, app_nil_r. apply take_app_length'. llia.
Qed.

Lemma Add_spec (e : elem) (q : Queue) :
  wf q -> count q < max_len q ->
  exists q', Add e q = Ok tt q' /\ wf q' /\ held q' = held q ++ [e] /\
             count q' = count q + 1 /\ max_len q' = max_len q.
Proof.
  intros Hwf Hm. pose proof (wf_len_ge q Hwf) as Hge.
  destruct Hwf as [[k Hk] Hh Hc Ht Hl]. unfold minQueueLen in *.
  destruct (decide (count q = len (buf q))) as [Hfull|Hnf].
  - eexists. split; [by apply Add_grow; lia|].
    assert (len (held q ++ replicate (Z.to_nat (count q)) nilv) = 2 * count q) as Hlen.
    { unfold len. rewrite length_app, held_length, length_replicate. lia. }
    split; [|split; [|done]].
    + split; simpl; rewrite ?len_insert, ?Hlen; try lia.
      * exists (S k). rewrite Nat2Z.inj_succ, Z.pow_succ_r by lia.
        unfold minQueueLen. lia.
      * rewrite mod_wrap by lia. rewrite decide_True by lia. lia.
    + unfold held at 1. simpl.
      replace (Z.to_nat (count q)) with
        (Z.to_nat ((0 + count q) `mod`
           len (held q ++ replicate (Z.to_nat (count q)) nilv))) at 1.
      2:{ rewrite Hlen, mod_wrap by lia. rewrite decide_True by lia. lia. }
      rewrite ring_insert_tail by lia.
      rewrite ring_prefix; [done| |]; rewrite ?len_held; lia.
  - assert (0 <= tail q < len (buf q)) as Htl.
    { rewrite Ht, mod_wrap by lia. case_decide; lia. }
    eexists. split; [by apply Add_no_grow; lia|].
    split; [|split; [|done]].
    + split; simpl; rewrite ?len_insert; try lia.
      * by exists k.
      * rewrite rem_wrap by lia. rewrite Ht, !mod_wrap by lia.
        repeat case_decide; lia.
    + unfold held. simpl. rewrite Ht. by apply ring_insert_tail; lia.
Qed.

(** *** [Peek] and [Get] *)

Lemma Peek_empty (q : Queue) :
  count q <= 0 ->
  Peek q = Panic (PanicMsg "queue: Peek() called on empty queue") q.
Proof. intros H. unfold Peek. run_monad. by rewrite decide_True by lia. Qed.

Lemma Peek_spec (q : Queue) :
  wf q -> 0 < count q ->
  exists x, Peek q = Ok x q /\ held q !! O = Some x.
Proof.
  intros [_ Hh Hc _ _] Hpos. unfold Peek. run_monad.
  rewrite decide_False by lia. rewrite index_ok by lia.
  unfold held. rewrite ring_head by lia.
  destruct (lookup_lt_is_Some_2 (buf q) (Z.to_nat (head q))) as [x Hx]; [llia|].
  exists x. by rewrite Hx.
Qed.

Lemma Get_out_of_range (i : Z) (q : Queue) :
  i < 0 \/ i >= count q ->
  Get i q = Panic (PanicMsg "queue: Get() called with index out of range") q.
Proof. intros H. unfold Get. run_monad. by rewrite decide_True by lia. Qed.

Lemma Get_spec (i : Z) (q : Queue) :
  wf q -> 0 <= i < count q ->
  exists x, Get i q = Ok x q /\
            index (buf q) ((head q + i) `mod` len (buf q)) = Some x /\
            held q !! Z.to_nat i = Some x.
Proof.
  intros [_ Hh Hc _ _] Hi. unfold Get. run_monad.
  rewrite decide_False by lia. rewrite go_rem_ok by lia. run_monad.
  rewrite Z.rem_mod_nonneg by lia.
  assert (0 <= (head q + i) `mod` len (buf q) < len (buf q)) as Hj.
  { apply Z.mod_pos_bound. lia. }
  rewrite index_ok by lia. unfold held.
  rewrite ring_lookup by lia. rewrite Z2Nat.id by lia.
  destruct (lookup_lt_is_Some_2 (buf q)
              (Z.to_nat ((head q + i) `mod` len (buf q)))) as [x Hx]; [llia|].
  exists x. by rewrite Hx.
Qed.

(** *** [Remove] and [PeekAndRemove] *)

Lemma Remove_empty (q : Queue) :
  count q <= 0 ->
  Remove q = Panic (PanicMsg "queue: Remove() called on empty queue") q.
Proof. intros H. unfold Remove. run_monad. by rewrite decide_True by lia. Qed.

Lemma PeekAndRemove_empty (q : Queue) :
  count q <= 0 ->
  PeekAndRemove q = Panic (PanicMsg "queue: Remove() called on empty queue") q.
Proof.
  intros H. unfold PeekAndRemove. run_monad. by rewrite decide_True by lia.
Qed.

Lemma Remove_no_shrink (q : Queue) :
  0 < count q -> 0 <= head q < len (buf q) ->
  ~ (len (buf q) > minQueueLen /\ (count q - 1) * 4 = len (buf q)) ->
  Remove q = Ok tt (mkQueue (<[Z.to_nat (head q) := nilv]> (buf q))
                      (Z.rem (head q + 1) (len (buf q))) (tail q)
                      (count q - 1) (max_len q) (spawned q)).
Proof.
  intros Hc Hh Hs. unfold Remove. run_monad.
  rewrite decide_False by lia. rewrite store_ok by lia. run_monad.
  rewrite len_insert, go_rem_ok by lia. run_monad.
  rewrite !len_insert. by rewrite decide_False by done.
Qed.

Lemma Remove_shrink (q : Queue) :
  0 < count q <= len (buf q) -> 0 <= head q < len (buf q) ->
  tail q = (head q + count q) `mod` len (buf q) ->
  len (buf q) > minQueueLen -> (count q - 1) * 4 = len (buf q) ->
  Remove q = Ok tt (mkQueue
                      (drop 1 (held q) ++ replicate (Z.to_nat (count q - 1)) nilv)
                      0 (count q - 1) (count q - 1) (max_len q) (spawned q)).
Proof.
  intros Hc Hh Ht Hmin Hq. unfold Remove. run_monad.
  rewrite decide_False by lia. rewrite store_ok by lia. run_monad.
  rewrite len_insert, go_rem_ok by lia. run_monad.
  rewrite !len_insert. rewrite decide_True by done.
  rewrite Z.rem_mod_nonneg by lia.
  assert (0 <= (head q + 1) `mod` len (buf q) < len (buf q)) as Hh'.
  { apply Z.mod_pos_bound. lia. }
  rewrite resize_spec; simpl; rewrite ?len_insert; try lia.
  - unfold held at 1. simpl. by rewrite ring_remove_head by lia.
  - rewrite Ht. rewrite !mod_wrap by (rewrite ?mod_wrap by lia; repeat case_decide; lia).
    repeat case_decide; lia.
Qed.

Lemma Remove_spec (q : Queue) :
  wf q -> 0 < count q ->
  exists q', Remove q = Ok tt q' /\ wf q' /\ held q' = drop 1 (held q) /\
             count q' = count q - 1 /\ max_len q' = max_len q.
Proof.
  intros Hwf Hpos. pose proof (wf_len_ge q Hwf) as Hge.
  destruct Hwf as [[k Hk] Hh Hc Ht Hl].
  destruct (decide (len (buf q) > minQueueLen /\ (count q - 1) * 4 = len (buf q)))
    as [[Hbig Hquarter]|Hno].
  - eexists. split; [by apply Remove_shrink; lia|].
    assert (len (drop 1 (held q) ++ replicate (Z.to_nat (count q - 1)) nilv)
            = 2 * (count q - 1)) as Hlen.
    { unfold len. rewrite length_app, length_drop, held_length, length_replicate. lia. }
    unfold minQueueLen in *.
    split; [|split; [|done]].
    + split; simpl; rewrite ?Hlen; try lia.
      * destruct k as [|k]; [simpl in Hk; lia|]. exists k.
        rewrite Nat2Z.inj_succ, Z.pow_succ_r in Hk by lia.
        unfold minQueueLen. lia.
      * rewrite mod_wrap by lia. rewrite decide_True by lia. lia.
    + unfold held at 1. simpl. apply ring_prefix.
      * unfold len. rewrite length_drop, held_length. lia.
      * lia.
  - eexists. split; [apply Remove_no_shrink; [lia|lia|done]|].
    unfold minQueueLen in *.
    split; [|split; [|done]].
    + split; simpl; rewrite ?len_insert; try lia.
      * by exists k.
      * rewrite rem_wrap by lia. case_decide; lia.
      * rewrite Ht. rewrite rem_wrap by lia.
        rewrite !mod_wrap by (repeat case_decide; lia).
        repeat case_decide; lia.
    + unfold held. simpl. rewrite Z.rem_mod_nonneg by lia.
      by apply ring_remove_head; lia.
Qed.

Lemma PeekAndRemove_nonempty (q : Queue) :
  0 < count q -> PeekAndRemove q = PeekThenRemove q.
Proof.
  intros Hpos. unfold PeekAndRemove, PeekThenRemove, Peek, Remove. run_monad.
  rewrite !decide_False by lia.
  destruct (index (buf q) (head q)); run_monad; [|done].
  rewrite !decide_False by lia.
  destruct (store (buf q) (head q) nilv); run_monad; [|done].
  destruct (go_rem _ _); run_monad; [|done].
  destruct (decide _); [|done].
  by destruct (resize _).
Qed.

(** *** Range of the arithmetic *)

Lemma arithmetic_in_int_range (q : Queue) (i : Z) :
  wf q -> 4 * len (buf q) < 2 ^ 63 -> 0 <= i < count q ->
  0 <= count q * 2 < 2 ^ 63 /\ 0 <= (count q - 1) * 4 < 2 ^ 63 /\
  0 <= tail q + 1 < 2 ^ 63 /\ 0 <= head q + 1 < 2 ^ 63 /\
  0 <= head q + i < 2 ^ 63 /\ 0 <= count q + 1 < 2 ^ 63.
Proof.
  intros Hwf Hlen Hi. pose proof (wf_len_ge q Hwf) as Hge.
  destruct Hwf as [_ Hh Hc Ht _]. unfold minQueueLen in *.
  assert (0 <= tail q < len (buf q)) as Htl.
  { rewrite Ht. apply Z.mod_pos_bound. lia. }
  lia.
Qed.

(** *** Construction *)

Lemma New_wf (m : Z) : wf (New m).
Proof.
  split; simpl; try done; try lia.
  by exists O.
Qed.

Lemma held_New (m : Z) : held (New m) = [].
Proof. done. Qed.

(** *** One client step against the reference model *)

Lemma PeekAndRemove_spec (q : Queue) :
  wf q -> 0 < count q ->
  exists x q', PeekAndRemove q = Ok x q' /\ Peek q = Ok x q /\
               Remove q = Ok tt q' /\ wf q' /\ held q !! O = Some x /\
               held q' = drop 1 (held q) /\
               count q' = count q - 1 /\ max_len q' = max_len q.
Proof.
  intros Hwf Hpos.
  destruct (Peek_spec q Hwf Hpos) as (x & Hpeek & Hx).
  destruct (Remove_spec q Hwf Hpos) as (q' & Hrem & Hwf' & Hheld & Hcnt & Hmax).
  exists x, q'. split_and!; try done.
  rewrite PeekAndRemove_nonempty by done.
  unfold PeekThenRemove. run_monad. rewrite Hpeek, Hrem. done.
Qed.

Lemma held_nil_count (q : Queue) : wf q -> held q = [] -> count q = 0.
Proof.
  intros Hwf Hnil. pose proof (held_length q) as Hl. rewrite Hnil in Hl.
  destruct Hwf. simpl in Hl. lia.
Qed.

Lemma held_cons_count (q : Queue) (x : elem) (l : list elem) :
  held q = x :: l -> 0 < count q.
Proof.
  intros Hc. pose proof (held_length q) as Hl. rewrite Hc in Hl.
  simpl in Hl. lia.
Qed.

Lemma step_add (e : elem) (q : Queue) :
  wf q ->
  exists q', step (OpAdd e) q = Ok [] q' /\ wf q' /\ max_len q' = max_len q /\
    held q' = if decide (len (held q) >= max_len q) then held q
              else held q ++ [e].
Proof.
  intros Hwf. rewrite len_held by (destruct Hwf; lia).
  unfold step. run_monad. case_decide.
  - exists q. by rewrite Add_full by lia.
  - destruct (Add_spec e q Hwf) as (q' & Hadd & Hwf' & Hheld & _ & Hmax); [lia|].
    exists q'. by rewrite Hadd.
Qed.

Lemma step_remove (o : op) (q : Queue) :
  wf q -> o = OpRemove \/ o = OpPeekAndRemove ->
  match held q with
  | [] => exists p, step o q = Panic p q /\ is_EmptyQueue p = true
  | x :: l => exists q', step o q = Ok [x] q' /\ wf q' /\
                         max_len q' = max_len q /\ held q' = l
  end.
Proof.
  intros Hwf Ho. destruct (held q) as [|x l] eqn:Hheld.
  - apply held_nil_count in Hheld; [|done].
    destruct Ho as [-> | ->]; unfold step; run_monad.
    + rewrite Peek_empty by lia. by eexists.
    + rewrite PeekAndRemove_empty by lia. by eexists.
  - pose proof (held_cons_count q x l Hheld) as Hpos.
    destruct (PeekAndRemove_spec q Hwf Hpos)
      as (y & q' & Hpr & Hpeek & Hrem & Hwf' & Hy & Hheld' & _ & Hmax).
    rewrite Hheld in Hy, Hheld'. simpl in Hy, Hheld'. simplify_eq.
    exists q'. rewrite drop_0 in Hheld'.
    destruct Ho as [-> | ->]; unfold step; run_monad.
    + by rewrite Hpeek, Hrem.
    + by rewrite Hpr.
Qed.

(** *** Programs against the reference model *)

Lemma run_cons (o : op) (ops : list op) (q : Queue) :
  run (o :: ops) q =
  match step o q with
  | Ok r q' => match run ops q' with
               | Ok rs q'' => Ok (r ++ rs) q''
               | Panic p q'' => Panic p q''
               end
  | Panic p q' => Panic p q'
  end.
Proof. done. Qed.

Lemma run_fifo (ops : list op) (q : Queue) :
  wf q ->
  match fifo_run (max_len q) ops (held q) with
  | Some (out, l) =>
      exists q', run ops q = Ok out q' /\ wf q' /\ held q' = l /\
                 max_len q' = max_len q
  | None => exists p q', run ops q = Panic p q' /\ is_EmptyQueue p = true
  end.
Proof.
  revert q. induction ops as [|o ops IH]; intros q Hwf.
  - simpl. by exists q.
  - rewrite run_cons.
    assert (forall q1 r l1,
      step o q = Ok r q1 -> wf q1 -> max_len q1 = max_len q -> held q1 = l1 ->
      match fifo_run (max_len q) ops l1 with
      | Some (out, l) =>
          exists q', match run ops q1 with
                     | Ok rs q'' => Ok (r ++ rs) q''
                     | Panic p q'' => Panic p q''
                     end = Ok (r ++ out) q' /\ wf q' /\ held q' = l /\
                     max_len q' = max_len q
      | None => exists p q', match run ops q1 with
                             | Ok rs q'' => Ok (r ++ rs) q''
                             | Panic p q'' => Panic p q''
                             end = Panic p q' /\ is_EmptyQueue p = true
      end) as Hnext.
    { intros q1 r l1 Hstep Hwf1 Hmax Hheld.
      specialize (IH q1 Hwf1). rewrite Hmax, Hheld in IH.
      destruct (fifo_run _ _ _) as [[out l]|].
      - destruct IH as (q' & Hrun & ? & ? & ?). exists q'. by rewrite Hrun.
      - destruct IH as (p & q' & Hrun & ?). exists p, q'. by rewrite Hrun. }
    destruct o as [e| |].
    + destruct (step_add e q Hwf) as (q1 & Hstep & Hwf1 & Hmax & Hheld).
      specialize (Hnext q1 [] _ Hstep Hwf1 Hmax Hheld).
      rewrite Hstep. cbn [fifo_run]. exact Hnext.
    + pose proof (step_remove OpRemove q Hwf (or_introl eq_refl)) as Hs.
      cbn [fifo_run]. destruct (held q) as [|x l].
      * destruct Hs as (p & Hstep & Hp). rewrite Hstep. by exists p, q.
      * destruct Hs as (q1 & Hstep & Hwf1 & Hmax & Hheld).
        specialize (Hnext q1 [x] _ Hstep Hwf1 Hmax Hheld).
        rewrite Hstep. by destruct (fifo_run _ _ _) as [[out l']|].
    + pose proof (step_remove OpPeekAndRemove q Hwf (or_intror eq_refl)) as Hs.
      cbn [fifo_run]. destruct (held q) as [|x l].
      * destruct Hs as (p & Hstep & Hp). rewrite Hstep. by exists p, q.
      * destruct Hs as (q1 & Hstep & Hwf1 & Hmax & Hheld).
        specialize (Hnext q1 [x] _ Hstep Hwf1 Hmax Hheld).
        rewrite Hstep. by destruct (fifo_run _ _ _) as [[out l']|].
Qed.

Lemma fifo_run_unbounded (m : Z) (ops : list op) (l : list elem) :
  len l + len (adds ops) <= m ->
  fifo_run m ops l =
  if balanced (length l) ops
  then Some (take (removals ops) (l ++ adds ops),
             drop (removals ops) (l ++ adds ops))
  else None.
Proof.
  revert l. induction ops as [|o ops IH]; intros l Hm.
  - simpl. by rewrite app_nil_r, drop_0.
  - destruct o as [e| |]; simpl.
    + rewrite decide_False by llia.
      rewrite IH by (unfold len in *; rewrite length_app; llia).
      rewrite length_app, Nat.add_1_r, <- (assoc_L (++)). done.
    + destruct l as [|x l]; [done|]. rewrite IH by llia. simpl.
      by destruct (balanced _ _).
    + destruct l as [|x l]; [done|]. rewrite IH by llia. simpl.
      by destruct (balanced _ _).
Qed.

Lemma run_from_New (m : Z) (ops : list op) :
  match fifo_run m ops [] with
  | Some (out, l) =>
      exists q, run ops (New m) = Ok out q /\ wf q /\ held q = l /\ max_len q = m
  | None => exists p q, run ops (New m) = Panic p q /\ is_EmptyQueue p = true
  end.
Proof. apply (run_fifo ops (New m)), New_wf. Qed.

Lemma run_wf (m : Z) (ops : list op) (out : list elem) (q : Queue) :
  run ops (New m) = Ok out q ->
  wf q /\ max_len q = m /\ fifo_run m ops [] = Some (out, held q).
Proof.
  intros Hrun. pose proof (run_from_New m ops) as H.
  destruct (fifo_run m ops []) as [[out' l]|].
  - destruct H as (q' & Hrun' & Hwf & Hheld & Hmax).
    rewrite Hrun in Hrun'. by simplify_eq.
  - destruct H as (p & q' & Hrun' & _). by rewrite Hrun in Hrun'.
Qed.

(** *** Panics of the runtime are not conditions of the queue *)

Lemma resize_panic (q q' : Queue) (p : panic) :
  resize q = Panic p q' -> is_EmptyQueue p = false.
Proof.
  unfold resize. run_monad.
  destruct (make _); run_monad; [|by intros [= <- _]].
  destruct (decide _).
  - destruct (slice _ _ _); run_monad; [done|by intros [= <- _]].
  - destruct (slice _ _ _); run_monad; [|by intros [= <- _]].
    destruct (slice _ _ _); run_monad; [|by intros [= <- _]].
    destruct (slice _ _ _); run_monad; [done|by intros [= <- _]].
Qed.

Lemma resize_linear (q q' : Queue) :
  resize q = Ok tt q' -> head q' = 0 /\ tail q' = count q'.
Proof.
  unfold resize. run_monad.
  destruct (make _); run_monad; [|done].
  destruct (decide _).
  - destruct (slice _ _ _); run_monad; [|done]. by intros [= <-].
  - destruct (slice _ _ _); run_monad; [|done].
    destruct (slice _ _ _); run_monad; [|done].
    destruct (slice _ _ _); run_monad; [|done]. by intros [= <-].
Qed.

Lemma Peek_panic (q q' : Queue) (p : panic) :
  Peek q = Panic p q' -> is_EmptyQueue p = true -> count q <= 0 /\ q' = q.
Proof.
  unfold Peek. run_monad. destruct (decide _) as [Hc|Hc].
  - by intros [= <- <-].
  - destruct (index _ _); run_monad; [done|]. by intros [= <- _].
Qed.

Lemma Remove_panic (q q' : Queue) (p : panic) :
  Remove q = Panic p q' -> is_EmptyQueue p = true -> count q <= 0 /\ q' = q.
Proof.
  unfold Remove. run_monad. destruct (decide _) as [Hc|Hc].
  - by intros [= <- <-].
  - destruct (store _ _ _); run_monad; [|by intros [= <- _]].
    destruct (go_rem _ _); run_monad; [|by intros [= <- _]].
    destruct (decide _); [|done].
    intros Hres Hp. apply resize_panic in Hres. congruence.
Qed.

Lemma PeekAndRemove_panic (q q' : Queue) (p : panic) :
  PeekAndRemove q = Panic p q' -> is_EmptyQueue p = true ->
  count q <= 0 /\ q' = q.
Proof.
  destruct (decide (count q <= 0)) as [Hc|Hc].
  - rewrite PeekAndRemove_empty by done. by intros [= <- <-].
  - rewrite PeekAndRemove_nonempty by lia. unfold PeekThenRemove. run_monad.
    destruct (Peek q) as [h q1|p1 q1] eqn:Hpeek.
    + assert (q1 = q) as ->.
      { revert Hpeek. unfold Peek. run_monad. destruct (decide _); [done|].
        destruct (index _ _); run_monad; [|done]. by intros [= _ <-]. }
      destruct (Remove q) as [[] q2|p2 q2] eqn:Hrem; [done|].
      intros [= <- <-] Hp. by destruct (Remove_panic _ _ _ Hrem Hp).
    + intros [= <- <-] Hp. by destruct (Peek_panic _ _ _ Hpeek Hp).
Qed.

(** ** The properties of the specification *)

(** C1, FIFO law.  A program that adds [e1..en] with [n <= capacityLimit]
    to a new queue and never removes from an empty queue runs without a
    panic, and the elements it takes out (seen by [Peek] before each
    [Remove], or returned by [PeekAndRemove]) are [e1, e2, ...] in the
    order they were added: the k-th removal takes the k-th element added.
    The elements not yet removed stay held, in that order. *)
Theorem FIFO_law (m : Z) (ops : list op) :
  len (adds ops) <= m ->
  balanced O ops = true ->
  exists q, run ops (New m) = Ok (take (removals ops) (adds ops)) q /\
            held q = drop (removals ops) (adds ops).
Proof.
  intros Hm Hbal. pose proof (run_from_New m ops) as H.
  rewrite fifo_run_unbounded in H by llia. simpl in H. rewrite Hbal in H.
  destruct H as (q & Hrun & _ & Hheld & _). by exists q.
Qed.

(** C2 as amended, capacity law.  In every state a program reaches from
    [New m], [Length()] is at most [max m 0]; an [Add] issued while
    [count >= m] returns with the whole state unchanged (content, length,
    no wake-up spawned); with [m <= 0] the queue is empty and every [Add]
    is rejected. *)
Theorem capacity_law (m : Z) (ops : list op) (out : list elem) (q : Queue) :
  run ops (New m) = Ok out q ->
  Length q = Ok (count q) q /\
  count q <= Z.max m 0 /\
  (forall e, count q >= m -> Add e q = Ok tt q) /\
  (m <= 0 -> held q = [] /\ count q = 0 /\ forall e, Add e q = Ok tt q).
Proof.
  intros Hrun. destruct (run_wf m ops out q Hrun) as (Hwf & Hmax & _).
  destruct Hwf as [_ _ Hc _ Hl]. split_and!.
  - done.
  - lia.
  - intros e He. apply Add_full. lia.
  - intros Hm. assert (count q = 0) as H0 by lia. split_and!; [|done|].
    + unfold held. by rewrite H0.
    + intros e. apply Add_full. lia.
Qed.

(** C3, Get semantics.  In every state [q] a program reaches from
    [New m], [Get(i)] panics with the IndexOutOfRange condition exactly
    when [i < 0] or [i >= count]; otherwise it returns
    [buf[(head+i) mod len(buf)]], leaves the state unchanged, and the
    element is the [i]-th of the elements the reference FIFO holds after
    the same program, oldest first. *)
Theorem Get_semantics (m : Z) (ops : list op) (out : list elem) (q : Queue) (i : Z) :
  run ops (New m) = Ok out q ->
  ((exists p q', Get i q = Panic p q' /\ is_IndexOutOfRange p = true)
   <-> (i < 0 \/ i >= count q)) /\
  (~ (i < 0 \/ i >= count q) ->
   exists x l, Get i q = Ok x q /\
               index (buf q) ((head q + i) `mod` len (buf q)) = Some x /\
               fifo_run m ops [] = Some (out, l) /\
               l !! Z.to_nat i = Some x).
Proof.
  intros Hrun. destruct (run_wf m ops out q Hrun) as (Hwf & Hmax & Hfifo).
  split.
  - split.
    + intros (p & q' & Hget & Hp).
      destruct (decide (i < 0 \/ i >= count q)) as [|Hin]; [done|].
      destruct (Get_spec i q Hwf) as (x & Hx & _); [lia|]. congruence.
    + intros Hout. rewrite Get_out_of_range by done. by eexists _, _.
  - intros Hin. destruct (Get_spec i q Hwf) as (x & Hget & Hbuf & Hheld); [lia|].
    by exists x, (held q).
Qed.

(** C4, empty-queue errors.  In a state with [count >= 0], each of
    [Peek], [Remove] and [PeekAndRemove] panics with the EmptyQueue
    condition exactly when [count = 0], and the state at that panic is
    the state before the call. *)
Theorem empty_queue_errors (q : Queue) :
  0 <= count q ->
  ((exists p q', Peek q = Panic p q' /\ is_EmptyQueue p = true) <-> count q = 0) /\
  ((exists p q', Remove q = Panic p q' /\ is_EmptyQueue p = true) <-> count q = 0) /\
  ((exists p q', PeekAndRemove q = Panic p q' /\ is_EmptyQueue p = true)
   <-> count q = 0) /\
  (forall p q', is_EmptyQueue p = true ->
     Peek q = Panic p q' \/ Remove q = Panic p q' \/ PeekAndRemove q = Panic p q' ->
     q' = q).
Proof.
  intros Hc. split_and!.
  - split.
    + intros (p & q' & Hpanic & Hp). destruct (Peek_panic _ _ _ Hpanic Hp). lia.
    + intros H0. rewrite Peek_empty by lia. by eexists _, _.
  - split.
    + intros (p & q' & Hpanic & Hp). destruct (Remove_panic _ _ _ Hpanic Hp). lia.
    + intros H0. rewrite Remove_empty by lia. by eexists _, _.
  - split.
    + intros (p & q' & Hpanic & Hp).
      destruct (PeekAndRemove_panic _ _ _ Hpanic Hp). lia.
    + intros H0. rewrite PeekAndRemove_empty by lia. by eexists _, _.
  - intros p q' Hp [H|[H|H]].
    + by destruct (Peek_panic _ _ _ H Hp).
    + by destruct (Remove_panic _ _ _ H Hp).
    + by destruct (PeekAndRemove_panic _ _ _ H Hp).
Qed.

(** C5, resize correctness.  In every state [q] a program reaches from
    [New m]: the buffer has at least 16 slots; the elements taken out so
    far and the elements held are those of the reference FIFO, whatever
    grows and shrinks the program crossed (none lost, duplicated or
    reordered); an [Add] that grows ([count = len(buf)]) appends its
    element, doubles the buffer and leaves [head = 0], [tail = count]; a
    [Remove] or [PeekAndRemove] that shrinks ([len(buf) > 16] and
    [count*4 = len(buf)] after the removal) takes the oldest element,
    halves the buffer, keeps at least 16 slots and leaves [head = 0],
    [tail = count]; and [resize] itself, whenever it returns, returns
    with [head = 0] and [tail = count]. *)
Theorem resize_correct (m : Z) (ops : list op) (out : list elem) (q : Queue) :
  run ops (New m) = Ok out q ->
  minQueueLen <= len (buf q) /\
  fifo_run m ops [] = Some (out, held q) /\
  (forall q0 q0', resize q0 = Ok tt q0' -> head q0' = 0 /\ tail q0' = count q0') /\
  (forall e, count q < m -> count q = len (buf q) ->
     exists q', Add e q = Ok tt q' /\ held q' = held q ++ [e] /\
                head q' = 0 /\ tail q' = count q' /\
                len (buf q') = 2 * len (buf q)) /\
  (len (buf q) > minQueueLen -> (count q - 1) * 4 = len (buf q) ->
     exists x q', Remove q = Ok tt q' /\ PeekAndRemove q = Ok x q' /\
                  held q = x :: held q' /\
                  head q' = 0 /\ tail q' = count q' /\
                  2 * len (buf q') = len (buf q) /\
                  minQueueLen <= len (buf q')).
Proof.
  intros Hrun. destruct (run_wf m ops out q Hrun) as (Hwf & Hmax & Hfifo).
  pose proof (wf_len_ge q Hwf) as Hge. split_and!; try done.
  - apply resize_linear.
  - intros e Hm Hfull.
    destruct (Add_spec e q Hwf) as (q' & Hadd & _ & Hheld & _); [lia|].
    exists q'. split_and!; try done.
    all: destruct Hwf as [_ Hh Hc Ht _]; unfold minQueueLen in *.
    all: rewrite Add_grow in Hadd by lia; injection Hadd as <-; simpl; try done.
    rewrite len_insert. unfold len.
    rewrite length_app, held_length, length_replicate. llia.
  - intros Hbig Hquarter.
    assert (0 < count q) as Hpos by (unfold minQueueLen in *; lia).
    destruct (PeekAndRemove_spec q Hwf Hpos)
      as (x & q' & Hpr & _ & Hrem & Hwf' & Hx & Hheld & _).
    exists x, q'. split_and!; try done.
    + rewrite Hheld. destruct (held q) as [|y l]; [done|].
      simpl in *. rewrite drop_0. congruence.
    + destruct Hwf as [_ Hh Hc Ht _].
      rewrite Remove_shrink in Hrem by lia. by injection Hrem as <-.
    + destruct Hwf as [_ Hh Hc Ht _].
      rewrite Remove_shrink in Hrem by lia. by injection Hrem as <-.
    + destruct Hwf as [_ Hh Hc Ht _].
      rewrite Remove_shrink in Hrem by lia. injection Hrem as <-. simpl.
      unfold len at 1.
      rewrite length_app, length_drop, held_length, length_replicate. llia.
    + by apply wf_len_ge.
Qed.

(** C7, [PeekAndRemove] is [Peek] followed by [Remove].  In every state
    the two end alike: the same element in the same final state (the one
    [Remove], with its shrink step, produces), or a panic in the same
    state; and [PeekAndRemove] panics with the EmptyQueue condition
    exactly when [Peek] does. *)
Theorem PeekAndRemove_is_Peek_then_Remove (q : Queue) :
  same_outcome (PeekAndRemove q) (PeekThenRemove q) /\
  ((exists p q', PeekAndRemove q = Panic p q' /\ is_EmptyQueue p = true)
   <-> (exists p q', Peek q = Panic p q' /\ is_EmptyQueue p = true)).
Proof.
  destruct (decide (count q <= 0)) as [Hc|Hc].
  - rewrite PeekAndRemove_empty by done. unfold PeekThenRemove. run_monad.
    rewrite Peek_empty by done. split.
    + simpl. split; [done|]. by right.
    + split; intros _; by eexists _, _.
  - rewrite PeekAndRemove_nonempty by lia. split.
    + destruct (PeekThenRemove q); simpl; auto.
    + rewrite <- PeekAndRemove_nonempty by lia. split.
      * intros (p & q' & Hpanic & Hp).
        destruct (PeekAndRemove_panic _ _ _ Hpanic Hp). lia.
      * intros (p & q' & Hpanic & Hp). destruct (Peek_panic _ _ _ Hpanic Hp). lia.
Qed.

(** C8 as amended, round trip.  On an empty queue with a limit of at
    least one: after [Add(x)], [Peek()] returns [x], [PeekAndRemove()]
    returns [x], and [Length()] is one less after the removal than
    before it. *)
Theorem round_trip (x : elem) (q : Queue) :
  wf q -> count q = 0 -> 1 <= max_len q ->
  exists q1 q2, Add x q = Ok tt q1 /\ Peek q1 = Ok x q1 /\
                PeekAndRemove q1 = Ok x q2 /\
                Length q1 = Ok (count q1) q1 /\ Length q2 = Ok (count q2) q2 /\
                count q2 = count q1 - 1.
Proof.
  intros Hwf H0 Hm.
  destruct (Add_spec x q Hwf) as (q1 & Hadd & Hwf1 & Hheld & Hcnt & _); [lia|].
  assert (held q = []) as Hnil by (unfold held; by rewrite H0).
  rewrite Hnil in Hheld. simpl in Hheld.
  destruct (PeekAndRemove_spec q1 Hwf1)
    as (y & q2 & Hpr & Hpeek & _ & _ & Hy & _ & Hcnt2 & _); [lia|].
  rewrite Hheld in Hy. simpl in Hy. simplify_eq.
  by exists q1, q2.
Qed.

(** C10, observer purity.  [Length()], [Peek()] and [Get(i)] leave the
    queue in the state they found it, every field included, whether they
    return or panic. *)
Theorem observers_pure (q : Queue) :
  final_state (Length q) = q /\
  final_state (Peek q) = q /\
  forall i, final_state (Get i q) = q.
Proof.
  split_and!.
  - done.
  - unfold Peek. run_monad. destruct (decide _); [done|].
    by destruct (index _ _).
  - intros i. unfold Get. run_monad. destruct (decide _); [done|].
    destruct (go_rem _ _); run_monad; [|done]. by destruct (index _ _).
Qed.

(** ** Further properties of the code *)

(** *** Steps of a program, taken apart *)

Lemma step_inv (o : op) (q q1 : Queue) (r : list elem) :
  wf q -> step o q = Ok r q1 ->
  wf q1 /\
  ((exists e, o = OpAdd e /\ r = [] /\ Add e q = Ok tt q1) \/
   (exists x, r = [x] /\ 0 < count q /\ Peek q = Ok x q /\
              Remove q = Ok tt q1 /\ PeekAndRemove q = Ok x q1)).
Proof.
  intros Hwf Hstep. destruct o as [e| |].
  - destruct (step_add e q Hwf) as (q' & Hs & Hwf' & _).
    rewrite Hstep in Hs. injection Hs as -> ->. split; [done|]. left.
    exists e. split_and!; try done.
    revert Hstep. unfold step. run_monad.
    by destruct (Add e q) as [[] q2|]; intros [= <-].
  - destruct (decide (count q <= 0)) as [Hc|Hc].
    { revert Hstep. unfold step. run_monad. by rewrite Peek_empty by done. }
    destruct (PeekAndRemove_spec q Hwf)
      as (x & q' & Hpr & Hpeek & Hrem & Hwf' & _); [lia|].
    revert Hstep. unfold step. run_monad. rewrite Hpeek, Hrem.
    intros [= <- <-]. split; [done|]. right. exists x. split_and!; try done. lia.
  - destruct (decide (count q <= 0)) as [Hc|Hc].
    { revert Hstep. unfold step. run_monad.
      by rewrite PeekAndRemove_empty by done. }
    destruct (PeekAndRemove_spec q Hwf)
      as (x & q' & Hpr & Hpeek & Hrem & Hwf' & _); [lia|].
    revert Hstep. unfold step. run_monad. rewrite Hpr.
    intros [= <- <-]. split; [done|]. right. exists x. split_and!; try done. lia.
Qed.

Lemma run_cons_inv (o : op) (ops : list op) (q q' : Queue) (out : list elem) :
  run (o :: ops) q = Ok out q' ->
  exists r q1 rs, step o q = Ok r q1 /\ run ops q1 = Ok rs q' /\ out = r ++ rs.
Proof.
  rewrite run_cons. destruct (step o q) as [r q1|]; [|done].
  destruct (run ops q1) as [rs q2|] eqn:Hrest; [|done].
  intros [= <- <-]. by exists r, q1, rs.
Qed.

Lemma Add_cases (e : elem) (q q' : Queue) :
  wf q -> Add e q = Ok tt q' ->
  (count q >= max_len q /\ q' = q) \/
  (count q < max_len q /\ count q < len (buf q) /\
   q' = mkQueue (<[Z.to_nat (tail q) := e]> (buf q)) (head q)
          (Z.rem (tail q + 1) (len (buf q))) (count q + 1)
          (max_len q) (S (spawned q))) \/
  (count q < max_len q /\ count q = len (buf q) /\
   q' = mkQueue (<[Z.to_nat (count q) := e]>
                   (held q ++ replicate (Z.to_nat (count q)) nilv))
          0 (count q + 1) (count q + 1) (max_len q) (S (spawned q))).
Proof.
  intros Hwf Hadd. pose proof (wf_len_ge q Hwf) as Hge.
  destruct Hwf as [_ Hh Hc Ht _]. unfold minQueueLen in *.
  destruct (decide (count q >= max_len q)) as [Hfull|Hroom].
  - left. rewrite Add_full in Hadd by done. injection Hadd as <-. by split.
  - right. destruct (decide (count q = len (buf q))) as [Heq|Hne].
    + right. rewrite Add_grow in Hadd by lia. injection Hadd as <-.
      split_and!; [lia|done|done].
    + left. rewrite Add_no_grow in Hadd.
      * injection Hadd as <-. split_and!; [lia|lia|done].
      * lia.
      * done.
      * rewrite Ht. apply Z.mod_pos_bound. lia.
Qed.

Lemma Remove_cases (q q' : Queue) :
  wf q -> 0 < count q -> Remove q = Ok tt q' ->
  (~ (len (buf q) > minQueueLen /\ (count q - 1) * 4 = len (buf q)) /\
   q' = mkQueue (<[Z.to_nat (head q) := nilv]> (buf q))
          (Z.rem (head q + 1) (len (buf q))) (tail q)
          (count q - 1) (max_len q) (spawned q)) \/
  (len (buf q) > minQueueLen /\ (count q - 1) * 4 = len (buf q) /\
   q' = mkQueue (drop 1 (held q) ++ replicate (Z.to_nat (count q - 1)) nilv)
          0 (count q - 1) (count q - 1) (max_len q) (spawned q)).
Proof.
  intros Hwf Hpos Hrem. destruct Hwf as [_ Hh Hc Ht _].
  destruct (decide (len (buf q) > minQueueLen /\ (count q - 1) * 4 = len (buf q)))
    as [[Hbig Hquarter]|Hno].
  - right. rewrite Remove_shrink in Hrem by lia. injection Hrem as <-.
    by split_and!.
  - left. rewrite Remove_no_shrink in Hrem by (done || lia).
    injection Hrem as <-. by split.
Qed.

Lemma run_invariant (P : Queue -> Prop) :
  (forall e q q', wf q -> P q -> Add e q = Ok tt q' -> P q') ->
  (forall q q', wf q -> P q -> 0 < count q -> Remove q = Ok tt q' -> P q') ->
  forall ops q out q', wf q -> P q -> run ops q = Ok out q' -> P q'.
Proof.
  intros HAdd HRemove ops. induction ops as [|o ops IH]; intros q out q' Hwf HP.
  - by intros [= _ <-].
  - intros Hrun.
    destruct (run_cons_inv _ _ _ _ _ Hrun) as (r & q1 & rs & Hstep & Hrest & _).
    destruct (step_inv _ _ _ _ Hwf Hstep)
      as (Hwf1 & [(e & _ & _ & Hadd)|(x & _ & Hpos & _ & Hrem & _)]).
    + apply (IH q1 rs q' Hwf1); [|done]. by apply (HAdd e q q1).
    + apply (IH q1 rs q' Hwf1); [|done]. by apply (HRemove q q1).
Qed.

(** *** The buffer stays compact *)

Lemma len_grown (q : Queue) :
  0 <= count q ->
  len (held q ++ replicate (Z.to_nat (count q)) nilv) = 2 * count q.
Proof.
  intros. unfold len. rewrite length_app, held_length, length_replicate. lia.
Qed.

Lemma len_shrunk (q : Queue) :
  0 < count q ->
  len (drop 1 (held q) ++ replicate (Z.to_nat (count q - 1)) nilv)
  = 2 * (count q - 1).
Proof.
  intros. unfold len.
  rewrite length_app, length_drop, held_length, length_replicate. lia.
Qed.

Lemma compact_Add (e : elem) (q q' : Queue) :
  wf q -> compact q -> Add e q = Ok tt q' -> compact q'.
Proof.
  intros Hwf Hcompact Hadd. pose proof (wf_len_ge q Hwf) as Hge.
  destruct (Add_cases e q q' Hwf Hadd)
    as [[_ ->]|[(Hroom & Hlt & ->)|(Hroom & Hfull & ->)]]; [done| |].
  - destruct Hwf as [_ _ Hc _ _]. unfold compact in *. simpl.
    rewrite len_insert. lia.
  - destruct Hwf as [_ _ Hc _ _]. unfold compact, minQueueLen in *. simpl.
    rewrite len_insert, len_grown by lia. lia.
Qed.

Lemma compact_Remove (q q' : Queue) :
  wf q -> compact q -> 0 < count q -> Remove q = Ok tt q' -> compact q'.
Proof.
  intros Hwf Hcompact Hpos Hrem.
  destruct (Remove_cases q q' Hwf Hpos Hrem)
    as [[Hno ->]|(Hbig & Hquarter & ->)].
  - destruct Hwf as [[k Hk] _ Hc _ _]. unfold compact, minQueueLen in *. simpl.
    rewrite len_insert. remember (2 ^ Z.of_nat k) as z. lia.
  - destruct Hwf as [_ _ Hc _ Hl]. unfold compact, minQueueLen in *. simpl.
    rewrite len_shrunk by lia. lia.
Qed.

(** *** Vacated slots hold nil *)

Lemma clean_Add (e : elem) (q q' : Queue) :
  wf q -> clean q -> Add e q = Ok tt q' -> clean q'.
Proof.
  intros Hwf Hclean Hadd. pose proof (wf_len_ge q Hwf) as Hge.
  destruct (Add_cases e q q' Hwf Hadd)
    as [[_ ->]|[(Hroom & Hlt & ->)|(Hroom & Hfull & ->)]]; [done| |].
  - destruct Hwf as [_ Hh Hc Ht _]. unfold minQueueLen in *.
    intros i. simpl. rewrite len_insert. intros Hi.
    specialize (Hclean i ltac:(lia)).
    assert (0 <= (head q + i) `mod` len (buf q) < len (buf q)) as Hj
      by (apply Z.mod_pos_bound; lia).
    rewrite index_ok in Hclean |- * by lia.
    rewrite list_lookup_insert_ne; [done|].
    rewrite Ht. rewrite !mod_wrap by lia. repeat case_decide; lia.
  - destruct Hwf as [_ Hh Hc Ht _]. unfold minQueueLen in *.
    intros i. simpl. rewrite len_insert, len_grown by lia. intros Hi.
    rewrite Z.add_0_l, Z.mod_small by lia. rewrite index_ok by lia.
    rewrite list_lookup_insert_ne by lia.
    rewrite lookup_app_r by (rewrite held_length; lia).
    apply lookup_replicate_2. rewrite held_length. lia.
Qed.

Lemma clean_Remove (q q' : Queue) :
  wf q -> clean q -> 0 < count q -> Remove q = Ok tt q' -> clean q'.
Proof.
  intros Hwf Hclean Hpos Hrem. pose proof (wf_len_ge q Hwf) as Hge.
  destruct (Remove_cases q q' Hwf Hpos Hrem)
    as [[Hno ->]|(Hbig & Hquarter & ->)].
  - destruct Hwf as [_ Hh Hc Ht _]. unfold minQueueLen in *.
    intros i. simpl. rewrite len_insert. intros Hi.
    rewrite Z.rem_mod_nonneg by lia.
    assert (0 <= ((head q + 1) `mod` len (buf q) + i) `mod` len (buf q)
            < len (buf q)) as Hj by (apply Z.mod_pos_bound; lia).
    rewrite index_ok by lia.
    destruct (decide (i + 1 = len (buf q))) as [Hlast|Hmid].
    + replace (((head q + 1) `mod` len (buf q) + i) `mod` len (buf q))
        with (head q).
      * apply list_lookup_insert_eq. llia.
      * rewrite (mod_wrap (head q + 1)) by lia.
        case_decide; rewrite mod_wrap by lia; case_decide; lia.
    + specialize (Hclean (i + 1) ltac:(lia)).
      assert (0 <= (head q + (i + 1)) `mod` len (buf q) < len (buf q)) as Hj'
        by (apply Z.mod_pos_bound; lia).
      rewrite index_ok in Hclean by lia.
      assert (((head q + 1) `mod` len (buf q) + i) `mod` len (buf q)
              = (head q + (i + 1)) `mod` len (buf q)) as ->.
      { rewrite (mod_wrap (head q + 1)) by lia.
        case_decide; rewrite !mod_wrap by lia; repeat case_decide; lia. }
      rewrite list_lookup_insert_ne; [done|].
      rewrite mod_wrap by lia. case_decide; lia.
  - destruct Hwf as [_ Hh Hc Ht _]. unfold minQueueLen in *.
    intros i. simpl. rewrite len_shrunk by lia. intros Hi.
    rewrite Z.add_0_l, Z.mod_small by lia. rewrite index_ok by lia.
    rewrite lookup_app_r by (rewrite length_drop, held_length; lia).
    apply lookup_replicate_2. rewrite length_drop, held_length. lia.
Qed.

Lemma clean_New (m : Z) : clean (New m).
Proof.
  intros i. unfold New. cbn [buf head count].
  assert (len (replicate (Z.to_nat minQueueLen) nilv) = minQueueLen) as ->.
  { unfold len. rewrite length_replicate. unfold minQueueLen. lia. }
  unfold minQueueLen. intros Hi.
  rewrite Z.add_0_l, Z.mod_small by lia. rewrite index_ok by lia.
  apply lookup_replicate_2. lia.
Qed.

(** *** Wake-ups launched *)

Lemma run_spawned (ops : list op) (q q' : Queue) (out : list elem) :
  wf q -> run ops q = Ok out q' ->
  Z.of_nat (spawned q') + count q = Z.of_nat (spawned q) + len out + count q'.
Proof.
  revert q out. induction ops as [|o ops IH]; intros q out Hwf.
  - intros [= <- <-]. llia.
  - intros Hrun.
    destruct (run_cons_inv _ _ _ _ _ Hrun) as (r & q1 & rs & Hstep & Hrest & ->).
    destruct (step_inv _ _ _ _ Hwf Hstep)
      as (Hwf1 & [(e & _ & -> & Hadd)|(x & -> & Hpos & _ & Hrem & _)]).
    + specialize (IH q1 rs Hwf1 Hrest). simpl.
      destruct (Add_cases e q q1 Hwf Hadd)
        as [[_ ->]|[(_ & _ & ->)|(_ & _ & ->)]]; simpl in *; lia.
    + specialize (IH q1 rs Hwf1 Hrest).
      assert (len ([x] ++ rs) = 1 + len rs) as -> by llia.
      destruct (Remove_cases q q1 Hwf Hpos Hrem)
        as [[_ ->]|(_ & _ & ->)]; simpl in *; lia.
Qed.

(** *** Properties beyond the listed claims *)

(** X1, cursor invariant.  In every state a program reaches from
    [New m] the cursors are inside the buffer, the count is between 0 and
    the buffer length, [tail] is [head + count] modulo the buffer length,
    so that [head = tail] exactly when the queue is empty or the buffer
    is full, and the limit is the one given to [New]. *)
Theorem cursor_invariant (m : Z) (ops : list op) (out : list elem) (q : Queue) :
  run ops (New m) = Ok out q ->
  0 <= head q < len (buf q) /\
  0 <= tail q < len (buf q) /\
  0 <= count q <= len (buf q) /\
  tail q = (head q + count q) `mod` len (buf q) /\
  (head q = tail q <-> count q = 0 \/ count q = len (buf q)) /\
  max_len q = m.
Proof.
  intros Hrun. destruct (run_wf m ops out q Hrun) as (Hwf & Hmax & _).
  destruct Hwf as [_ Hh Hc Ht _].
  assert (0 <= tail q < len (buf q)) as Htl.
  { rewrite Ht. apply Z.mod_pos_bound. lia. }
  split_and!; try done; try lia.
  rewrite Ht, mod_wrap by lia. case_decide; lia.
Qed.

(** X2, buffer size.  In every state a program reaches from [New m] the
    buffer length is 16 times a power of two, and it is 16 or else less
    than four times the number of elements held and at most [2*(m-1)];
    so with a limit of at most 16 the buffer is never reallocated, and
    whenever at most 8 elements are held the buffer is back at 16 slots. *)
Theorem buffer_size_invariant (m : Z) (ops : list op) (out : list elem) (q : Queue) :
  run ops (New m) = Ok out q ->
  (exists k : nat, len (buf q) = minQueueLen * 2 ^ Z.of_nat k) /\
  (len (buf q) = minQueueLen \/
   (len (buf q) < 4 * count q /\ len (buf q) <= 2 * (m - 1))) /\
  (m <= minQueueLen -> len (buf q) = minQueueLen) /\
  (count q <= 8 -> len (buf q) = minQueueLen).
Proof.
  intros Hrun. destruct (run_wf m ops out q Hrun) as (Hwf & Hmax & _).
  assert (compact q) as Hcompact.
  { apply (run_invariant compact compact_Add compact_Remove
             ops (New m) out q (New_wf m)); [|done]. by left. }
  unfold compact in Hcompact. rewrite Hmax in Hcompact.
  destruct Hwf as [[k Hk] _ _ _ _].
  assert (len (buf q) = minQueueLen \/ 2 * minQueueLen <= len (buf q)) as Hstep.
  { destruct k as [|k]; [by left|right].
    rewrite Nat2Z.inj_succ, Z.pow_succ_r in Hk by lia.
    assert (0 < 2 ^ Z.of_nat k) by (apply Z.pow_pos_nonneg; lia).
    unfold minQueueLen in *. lia. }
  unfold minQueueLen in *.
  split_and!; [by exists k|done|lia|lia].
Qed.

(** X3, vacated slots.  In every state a program reaches from [New m],
    every buffer slot outside the live range holds [nil]: [Remove] and
    [PeekAndRemove] clear the slot they vacate and [resize] fills the rest
    of the new buffer with [nil], so no removed element stays referenced. *)
Theorem vacated_slots_are_nil (m : Z) (ops : list op) (out : list elem) (q : Queue)
    (i : Z) :
  run ops (New m) = Ok out q ->
  count q <= i < len (buf q) ->
  index (buf q) ((head q + i) `mod` len (buf q)) = Some nilv.
Proof.
  intros Hrun.
  apply (run_invariant clean clean_Add clean_Remove
           ops (New m) out q (New_wf m) (clean_New m) Hrun).
Qed.

(** X4, no runtime panic.  In every state a program reaches from
    [New m]: [Add] returns; [Peek], [Remove] and [PeekAndRemove] return
    when the queue is not empty; [Get(i)] returns when [0 <= i < count].
    No index, slice bound, [make] length or division check of the
    runtime fails. *)
Theorem no_runtime_panic (m : Z) (ops : list op) (out : list elem) (q : Queue) :
  run ops (New m) = Ok out q ->
  (forall e, exists q', Add e q = Ok tt q') /\
  (0 < count q ->
   (exists x, Peek q = Ok x q) /\ (exists q', Remove q = Ok tt q') /\
   (exists x q', PeekAndRemove q = Ok x q')) /\
  (forall i, 0 <= i < count q -> exists x, Get i q = Ok x q).
Proof.
  intros Hrun. destruct (run_wf m ops out q Hrun) as (Hwf & _ & _).
  split_and!.
  - intros e. destruct (decide (count q >= max_len q)) as [Hfull|Hroom].
    + exists q. by apply Add_full.
    + destruct (Add_spec e q Hwf) as (q' & Hadd & _); [lia|]. by exists q'.
  - intros Hpos.
    destruct (PeekAndRemove_spec q Hwf Hpos) as (x & q' & Hpr & Hpeek & Hrem & _).
    split_and!; [by exists x|by exists q'|by exists x, q'].
  - intros i Hi. destruct (Get_spec i q Hwf Hi) as (x & Hget & _). by exists x.
Qed.

(** X5, wake-ups.  In every state a program reaches from [New m], the
    number of wake-up goroutines launched so far is the number of
    elements taken out plus the number held: one per accepted [Add],
    none for a rejected [Add] or for a removal. *)
Theorem wakeups_count (m : Z) (ops : list op) (out : list elem) (q : Queue) :
  run ops (New m) = Ok out q ->
  Z.of_nat (spawned q) = len out + count q.
Proof.
  intros Hrun. pose proof (run_spawned ops (New m) q out (New_wf m) Hrun) as H.
  simpl in H. lia.
Qed.

(** X6, programs against the bounded FIFO.  A program on a new queue
    panics exactly when the reference FIFO fails, that is when it removes
    from an empty queue, and then with the EmptyQueue condition;
    otherwise it returns the elements the reference takes out, adds
    beyond the limit being dropped, and [Length()] is the number of
    elements the reference holds. *)
Theorem program_refinement (m : Z) (ops : list op) :
  match fifo_run m ops [] with
  | Some (out, l) =>
      exists q, run ops (New m) = Ok out q /\ held q = l /\
                Length q = Ok (len l) q
  | None => exists p q, run ops (New m) = Panic p q /\ is_EmptyQueue p = true
  end.
Proof.
  pose proof (run_from_New m ops) as H.
  destruct (fifo_run m ops []) as [[out l]|]; [|done].
  destruct H as (q & Hrun & Hwf & Hheld & _). exists q. split_and!; try done.
  rewrite <- Hheld, len_held by (destruct Hwf; lia). done.
Qed.

(** X7, indices after an accepted [Add].  In a reachable state with
    [count < m], [Add(e)] returns, [Length()] is one more, every index
    that [Get] answered before is answered the same, and [Get] at the old
    count returns [e]; this holds whether or not the [Add] grows the
    buffer. *)
Theorem Get_after_Add (m : Z) (ops : list op) (out : list elem) (q : Queue)
    (e : elem) :
  run ops (New m) = Ok out q ->
  count q < m ->
  exists q', Add e q = Ok tt q' /\
             Length q' = Ok (count q + 1) q' /\
             Get (count q) q' = Ok e q' /\
             forall i x, Get i q = Ok x q -> Get i q' = Ok x q'.
Proof.
  intros Hrun Hroom. destruct (run_wf m ops out q Hrun) as (Hwf & Hmax & _).
  destruct (Add_spec e q Hwf) as (q' & Hadd & Hwf' & Hheld & Hcnt & _); [lia|].
  assert (0 <= count q) as Hc by (destruct Hwf; lia).
  exists q'. split_and!; [done|by rewrite <- Hcnt| |].
  - destruct (Get_spec (count q) q' Hwf') as (x & Hget & _ & Hx); [lia|].
    rewrite Hheld, lookup_app_r in Hx by (rewrite held_length; lia).
    rewrite held_length, Nat.sub_diag in Hx. simpl in Hx. by simplify_eq.
  - intros i x Hget.
    destruct (decide (i < 0 \/ i >= count q)) as [Hout|Hin].
    { by rewrite Get_out_of_range in Hget by done. }
    destruct (Get_spec i q Hwf) as (y & Hget' & _ & Hy); [lia|].
    rewrite Hget in Hget'. injection Hget' as <-.
    destruct (Get_spec i q' Hwf') as (z & Hget'' & _ & Hz); [lia|].
    rewrite Hheld, lookup_app_l in Hz by (rewrite held_length; lia).
    rewrite Hy in Hz. by simplify_eq.
Qed.

(** X8, indices after a removal.  In a reachable, non-empty state
    [Remove] returns, [Length()] is one less, and every index moves down
    by one: what [Get(i+1)] answered before, [Get(i)] answers after; this
    holds whether or not the removal shrinks the buffer. *)
Theorem Get_after_Remove (m : Z) (ops : list op) (out : list elem) (q : Queue) :
  run ops (New m) = Ok out q ->
  0 < count q ->
  exists q', Remove q = Ok tt q' /\
             Length q' = Ok (count q - 1) q' /\
             forall i x, 0 <= i -> Get (i + 1) q = Ok x q -> Get i q' = Ok x q'.
Proof.
  intros Hrun Hpos. destruct (run_wf m ops out q Hrun) as (Hwf & _ & _).
  destruct (Remove_spec q Hwf Hpos) as (q' & Hrem & Hwf' & Hheld & Hcnt & _).
  exists q'. split_and!; [done|by rewrite <- Hcnt|].
  intros i x Hi Hget.
  destruct (decide (i + 1 >= count q)) as [Hout|Hin].
  { rewrite Get_out_of_range in Hget by lia. done. }
  destruct (Get_spec (i + 1) q Hwf) as (y & Hget' & _ & Hy); [lia|].
  rewrite Hget in Hget'. injection Hget' as <-.
  destruct (Get_spec i q' Hwf') as (z & Hget'' & _ & Hz); [lia|].
  rewrite Hheld, lookup_drop in Hz.
  replace (1 + Z.to_nat i)%nat with (Z.to_nat (i + 1)) in Hz by lia.
  rewrite Hy in Hz. by simplify_eq.
Qed.

(** X9, [Get(0)] and [Peek].  In a reachable, non-empty state [Get(0)]
    and [Peek()] return the same element; on an empty queue both panic,
    [Get(0)] with the IndexOutOfRange message and [Peek()] with the
    EmptyQueue message. *)
Theorem Get_zero_is_Peek (m : Z) (ops : list op) (out : list elem) (q : Queue) :
  run ops (New m) = Ok out q ->
  (0 < count q -> Get 0 q = Peek q) /\
  (count q = 0 ->
   exists p p', Get 0 q = Panic p q /\ Peek q = Panic p' q /\
                is_IndexOutOfRange p = true /\ is_EmptyQueue p' = true).
Proof.
  intros Hrun. destruct (run_wf m ops out q Hrun) as (Hwf & _ & _). split.
  - intros Hpos.
    destruct (Get_spec 0 q Hwf) as (x & Hget & _ & Hx); [lia|].
    destruct (Peek_spec q Hwf Hpos) as (y & Hpeek & Hy).
    change (Z.to_nat 0) with O in Hx. rewrite Hx in Hy. simplify_eq.
    by rewrite Hget, Hpeek.
  - intros H0. eexists _, _.
    rewrite Get_out_of_range by lia. rewrite Peek_empty by lia. done.
Qed.

(** X10, [resize].  On a state whose cursors are consistent ([head]
    inside the buffer, [0 <= count <= len(buf)], [tail = (head + count)
    mod len(buf)]), [resize] returns; the new buffer has exactly twice as
    many slots as elements are held, the held elements are the same in
    the same order and start at slot 0, the slots after them hold [nil],
    and count, limit and wake-ups are untouched. *)
Theorem resize_fits_twice (q : Queue) :
  0 <= head q < len (buf q) ->
  0 <= count q <= len (buf q) ->
  tail q = (head q + count q) `mod` len (buf q) ->
  exists q', resize q = Ok tt q' /\
             len (buf q') = 2 * count q /\
             held q' = held q /\
             take (Z.to_nat (count q)) (buf q') = held q /\
             (forall i, count q <= i < 2 * count q ->
                        index (buf q') i = Some nilv) /\
             head q' = 0 /\ tail q' = count q /\ count q' = count q /\
             max_len q' = max_len q /\ spawned q' = spawned q.
Proof.
  intros Hh Hc Ht. eexists. split; [by apply resize_spec|]. simpl.
  split_and!; try done.
  - apply len_grown. lia.
  - destruct (decide (count q = 0)) as [H0|Hpos].
    + unfold held. simpl. by rewrite H0.
    + unfold held at 1. simpl. apply ring_prefix; [|lia].
      by rewrite len_held by lia.
  - apply take_app_length'. rewrite held_length. done.
  - intros i Hi. rewrite index_ok by lia.
    rewrite lookup_app_r by (rewrite held_length; lia).
    apply lookup_replicate_2. rewrite held_length. lia.
Qed.

Lemma fifo_run_adds (m : Z) (es l : list elem) :
  fifo_run m (OpAdd <$> es) l = Some ([], l ++ take (Z.to_nat (m - len l)) es).
Proof.
  revert l. induction es as [|e es IH]; intros l.
  - simpl. by rewrite take_nil, app_nil_r.
  - simpl. rewrite IH. case_decide as Hfull.
    + replace (Z.to_nat (m - len l)) with O by lia. done.
    + assert (len (l ++ [e]) = len l + 1) as -> by (unfold len; rewrite length_app; llia).
      replace (Z.to_nat (m - len l)) with (S (Z.to_nat (m - (len l + 1)))) by lia.
      simpl. by rewrite <- (assoc_L (++)).
Qed.

(** X11, only adding.  A program that only adds the elements [es] to a
    new queue returns, and the queue then holds the first [m] of them in
    order (none if [m <= 0]): once the limit is reached the newer
    elements are the ones dropped. *)
Theorem adds_keep_the_first (m : Z) (es : list elem) :
  exists q, run (OpAdd <$> es) (New m) = Ok [] q /\
            held q = take (Z.to_nat m) es /\
            Length q = Ok (Z.min (len es) (Z.max m 0)) q.
Proof.
  pose proof (run_from_New m (OpAdd <$> es)) as H.
  rewrite fifo_run_adds in H. simpl in H.
  destruct H as (q & Hrun & Hwf & Hheld & _).
  replace (m - len []) with m in Hheld by llia.
  exists q. split_and!; try done.
  assert (count q = len (held q)) as Hc by (rewrite len_held; destruct Hwf; lia).
  unfold Length. run_monad. f_equal. rewrite Hc, Hheld.
  unfold len. rewrite length_take. lia.
Qed.

End Queue.

Arguments Queue : clear implicits.
Arguments outcome : clear implicits.
Arguments M : clear implicits.
Arguments op : clear implicits.
Arguments mkQueue {elem} buf head tail count max_len spawned.
Arguments Ok {elem A} a q.
Arguments Panic {elem A} p q.

(** ** Concrete runs *)

(** C1 at a program of three adds and two removals on [New(3)]. *)
Lemma FIFO_law_witness :
  exists q,
    run Nil [OpAdd (Int 1); OpAdd (Int 2); OpRemove; OpAdd (Int 3); OpPeekAndRemove]
      (New Nil 3) = Ok [Int 1; Int 2] q /\
    held Nil q = [Int 3].
Proof.
  apply (FIFO_law Nil 3
           [OpAdd (Int 1); OpAdd (Int 2); OpRemove; OpAdd (Int 3); OpPeekAndRemove]).
  - vm_compute. discriminate.
  - reflexivity.
Defined.

(** C2 as stated fails on [New(-1)]: the queue is empty, so [Length()]
    is [0], which is above the limit [-1]. *)
Lemma capacity_law_counterexample :
  ~ (forall (m : Z) (ops : list (op value)) out q c q',
       run Nil ops (New Nil m) = Ok out q -> Length q = Ok c q' -> c <= m).
Proof.
  intros H.
  specialize (H (-1) [] [] (New Nil (-1)) 0 (New Nil (-1)) eq_refl eq_refl).
  lia.
Qed.

(** C2 as amended, after four adds on [New(3)]. *)
Lemma capacity_law_witness :
  count (final_state
           (run Nil [OpAdd (Int 1); OpAdd (Int 2); OpAdd (Int 3); OpAdd (Int 4)]
              (New Nil 3))) <= Z.max 3 0.
Proof.
  refine (proj1 (proj2 (capacity_law Nil 3
    [OpAdd (Int 1); OpAdd (Int 2); OpAdd (Int 3); OpAdd (Int 4)] [] _ _))).
  vm_compute. reflexivity.
Defined.

(** C3 at index 1 after four adds on [New(3)]. *)
Lemma Get_semantics_witness :
  exists (x : value) (l : list value),
    Get 1 (final_state
             (run Nil [OpAdd (Int 1); OpAdd (Int 2); OpAdd (Int 3); OpAdd (Int 4)]
                (New Nil 3))) =
    Ok x (final_state
            (run Nil [OpAdd (Int 1); OpAdd (Int 2); OpAdd (Int 3); OpAdd (Int 4)]
               (New Nil 3))) /\
    l !! 1%nat = Some x.
Proof.
  assert (run Nil [OpAdd (Int 1); OpAdd (Int 2); OpAdd (Int 3); OpAdd (Int 4)]
            (New Nil 3) =
          Ok [] (final_state
                   (run Nil [OpAdd (Int 1); OpAdd (Int 2); OpAdd (Int 3); OpAdd (Int 4)]
                      (New Nil 3)))) as Hrun.
  { vm_compute. reflexivity. }
  assert (~ (1 < 0 \/ 1 >=
             count (final_state
                      (run Nil [OpAdd (Int 1); OpAdd (Int 2); OpAdd (Int 3); OpAdd (Int 4)]
                         (New Nil 3))))) as Hin.
  { vm_compute. intros [H|H]; [discriminate H | exact (H eq_refl)]. }
  pose proof (proj2 (Get_semantics Nil 3 _ _ _ 1 Hrun) Hin) as Hget.
  destruct Hget as (x & l & Hget & _ & _ & Hl).
  exists x, l. split; [exact Hget | exact Hl].
Defined.

(** C4 on the new queue. *)
Lemma empty_queue_errors_witness :
  exists p q', Peek (New Nil 3) = Panic p q' /\ is_EmptyQueue p = true.
Proof.
  apply (proj1 (empty_queue_errors Nil (New Nil 3) ltac:(simpl; lia))).
  reflexivity.
Defined.

(** C5 at a shrink: 17 adds grow the buffer to 32 slots, 8 removals
    leave 9 elements, and the next removal halves the buffer. *)
Lemma resize_correct_witness :
  exists x q',
    PeekAndRemove Nil
      (final_state
         (run Nil (((fun n => OpAdd (Int (Z.of_nat n))) <$> seq 0 17)
                   ++ replicate 8 OpRemove) (New Nil 100))) = Ok x q' /\
    head q' = 0 /\ tail q' = count q' /\ minQueueLen <= len (buf q').
Proof.
  assert (run Nil (((fun n => OpAdd (Int (Z.of_nat n))) <$> seq 0 17)
                   ++ replicate 8 OpRemove) (New Nil 100) =
          Ok (Int <$> seqZ 0 8)
             (final_state
                (run Nil (((fun n => OpAdd (Int (Z.of_nat n))) <$> seq 0 17)
                          ++ replicate 8 OpRemove) (New Nil 100)))) as Hrun.
  { vm_compute. reflexivity. }
  pose proof (proj2 (proj2 (proj2 (proj2 (resize_correct Nil 100 _ _ _ Hrun)))))
    as Hshrink.
  destruct Hshrink as (x & q' & _ & Hpr & _ & Hh & Ht & _ & Hmin).
  - vm_compute. reflexivity.
  - vm_compute. reflexivity.
  - exists x, q'. split; [exact Hpr|]. split; [exact Hh|]. split; [exact Ht|exact Hmin].
Defined.

(** C6, the concrete scenario. *)
Theorem concrete_scenario :
  exists q4 q5,
    (Add Nil (Int 1);; Add Nil (Int 2);; Add Nil (Int 3);; Add Nil (Int 4))
      (New Nil 3) = Ok tt q4 /\
    Length q4 = Ok 3 q4 /\
    Get 0 q4 = Ok (Int 1) q4 /\
    Get 1 q4 = Ok (Int 2) q4 /\
    Get 2 q4 = Ok (Int 3) q4 /\
    Remove Nil q4 = Ok tt q5 /\
    Length q5 = Ok 2 q5 /\
    Get 0 q5 = Ok (Int 2) q5.
Proof.
  eexists _, _. split_and!.
  - vm_compute. reflexivity.
  - reflexivity.
  - reflexivity.
  - reflexivity.
  - reflexivity.
  - vm_compute. reflexivity.
  - reflexivity.
  - reflexivity.
Qed.

(** C8 as stated fails on a queue that already holds an element: after
    [Add(1); Add(2)] on [New(3)], [Peek()] returns [1], not [2]. *)
Lemma round_trip_counterexample :
  ~ (forall (x : value) (m : Z) (ops : list (op value)) out q,
       run Nil ops (New Nil m) = Ok out q ->
       exists q1, Add Nil x q = Ok tt q1 /\ Peek q1 = Ok x q1).
Proof.
  intros H.
  destruct (H (Int 2) 3 [OpAdd (Int 1)] []
              (final_state (run Nil [OpAdd (Int 1)] (New Nil 3))))
    as (q1 & Hadd & Hpeek).
  - vm_compute. reflexivity.
  - vm_compute in Hadd. injection Hadd as <-. vm_compute in Hpeek. discriminate.
Qed.

(** C8 as amended, on the new queue. *)
Lemma round_trip_witness :
  exists q1 q2,
    Add Nil (Int 5) (New Nil 3) = Ok tt q1 /\ Peek q1 = Ok (Int 5) q1 /\
    PeekAndRemove Nil q1 = Ok (Int 5) q2 /\
    Length q1 = Ok (count q1) q1 /\ Length q2 = Ok (count q2) q2 /\
    count q2 = count q1 - 1.
Proof.
  apply (round_trip Nil (Int 5) (New Nil 3)).
  - apply New_wf.
  - reflexivity.
  - simpl. lia.
Defined.

(** ** Concrete runs for the further properties *)

(** X1 on a state whose live range wraps around the end of the buffer. *)
Lemma cursor_invariant_witness :
  exists out q,
    run Nil (fill_then_remove (Int <$> seqZ 0 16) 3 ++ [OpAdd (Int 16); OpAdd (Int 17)])
      (New Nil 20) = Ok out q /\
    tail q = (head q + count q) `mod` len (buf q).
Proof.
  eexists _, _. split; [vm_compute; reflexivity|].
  refine (proj1 (proj2 (proj2 (proj2 (cursor_invariant Nil 20
    (fill_then_remove (Int <$> seqZ 0 16) 3 ++ [OpAdd (Int 16); OpAdd (Int 17)])
    _ _ _))))).
  vm_compute. reflexivity.
Defined.

(** X2 after 17 adds and 8 removals: 32 slots for 9 elements. *)
Lemma buffer_size_invariant_witness :
  exists out q,
    run Nil (fill_then_remove (Int <$> seqZ 0 17) 8) (New Nil 100) = Ok out q /\
    (len (buf q) = minQueueLen \/
     (len (buf q) < 4 * count q /\ len (buf q) <= 2 * (100 - 1))).
Proof.
  eexists _, _. split; [vm_compute; reflexivity|].
  refine (proj1 (proj2 (buffer_size_invariant Nil 100
    (fill_then_remove (Int <$> seqZ 0 17) 8) _ _ _))).
  vm_compute. reflexivity.
Defined.

(** X3 on the same state, at a slot outside the live range. *)
Lemma vacated_slots_are_nil_witness :
  exists out q,
    run Nil (fill_then_remove (Int <$> seqZ 0 17) 8) (New Nil 100) = Ok out q /\
    index (buf q) ((head q + 30) `mod` len (buf q)) = Some Nil.
Proof.
  eexists _, _. split; [vm_compute; reflexivity|].
  refine (vacated_slots_are_nil Nil 100
    (fill_then_remove (Int <$> seqZ 0 17) 8) _ _ 30 _ _).
  - vm_compute. reflexivity.
  - vm_compute. split; [discriminate|reflexivity].
Defined.

(** X4 on the same state. *)
Lemma no_runtime_panic_witness :
  exists out q,
    run Nil (fill_then_remove (Int <$> seqZ 0 17) 8) (New Nil 100) = Ok out q /\
    forall e, exists q', Add Nil e q = Ok tt q'.
Proof.
  eexists _, _. split; [vm_compute; reflexivity|].
  refine (proj1 (no_runtime_panic Nil 100
    (fill_then_remove (Int <$> seqZ 0 17) 8) _ _ _)).
  vm_compute. reflexivity.
Defined.

(** X5 with a limit of 10: 17 adds, 10 accepted, 8 removals. *)
Lemma wakeups_count_witness :
  exists out q,
    run Nil (fill_then_remove (Int <$> seqZ 0 17) 8) (New Nil 10) = Ok out q /\
    Z.of_nat (spawned q) = len out + count q.
Proof.
  eexists _, _. split; [vm_compute; reflexivity|].
  refine (wakeups_count Nil 10 (fill_then_remove (Int <$> seqZ 0 17) 8) _ _ _).
  vm_compute. reflexivity.
Defined.

(** X7 on a full buffer: the [Add] grows it. *)
Lemma Get_after_Add_witness :
  exists out q,
    run Nil (fill_then_remove (Int <$> seqZ 0 16) 0) (New Nil 100) = Ok out q /\
    exists q', Add Nil (Int 16) q = Ok tt q' /\
               Length q' = Ok (count q + 1) q' /\
               Get (count q) q' = Ok (Int 16) q' /\
               forall i x, Get i q = Ok x q -> Get i q' = Ok x q'.
Proof.
  eexists _, _. split; [vm_compute; reflexivity|].
  refine (Get_after_Add Nil 100 (fill_then_remove (Int <$> seqZ 0 16) 0)
            _ _ (Int 16) _ _).
  - vm_compute. reflexivity.
  - vm_compute. reflexivity.
Defined.

(** X8 on a state where the removal shrinks the buffer. *)
Lemma Get_after_Remove_witness :
  exists out q,
    run Nil (fill_then_remove (Int <$> seqZ 0 17) 8) (New Nil 100) = Ok out q /\
    exists q', Remove Nil q = Ok tt q' /\
               Length q' = Ok (count q - 1) q' /\
               forall i x, 0 <= i -> Get (i + 1) q = Ok x q -> Get i q' = Ok x q'.
Proof.
  eexists _, _. split; [vm_compute; reflexivity|].
  refine (Get_after_Remove Nil 100 (fill_then_remove (Int <$> seqZ 0 17) 8)
            _ _ _ _).
  - vm_compute. reflexivity.
  - vm_compute. reflexivity.
Defined.

(** X9 on the same state. *)
Lemma Get_zero_is_Peek_witness :
  exists out q,
    run Nil (fill_then_remove (Int <$> seqZ 0 17) 8) (New Nil 100) = Ok out q /\
    Get 0 q = Peek q.
Proof.
  eexists _, _. split; [vm_compute; reflexivity|].
  refine (proj1 (Get_zero_is_Peek Nil 100
    (fill_then_remove (Int <$> seqZ 0 17) 8) _ _ _) _).
  - vm_compute. reflexivity.
  - vm_compute. reflexivity.
Defined.

(** X10 on a five-slot buffer whose three live slots wrap around. *)
Lemma resize_fits_twice_witness :
  exists q',
    resize Nil (mkQueue [Int 1; Int 2; Nil; Nil; Int 0] 4 2 3 10 0) = Ok tt q' /\
    len (buf q') = 2 * 3 /\
    take 3 (buf q') = [Int 0; Int 1; Int 2].
Proof.
  destruct (resize_fits_twice Nil (mkQueue [Int 1; Int 2; Nil; Nil; Int 0] 4 2 3 10 0))
    as (q' & Hres & Hlen & _ & Htake & _).
  - unfold len. simpl. lia.
  - unfold len. simpl. lia.
  - reflexivity.
  - exists q'. split; [exact Hres|]. split; [exact Hlen|exact Htake].
Defined.

(** ** The Wait/Stop protocol *)


Lemma crashed_app (l : list goroutine) (g : goroutine) :
  existsb is_panicked l = false -> is_panicked g = false ->
  existsb is_panicked (l ++ [g]) = false.
Proof.
  intros Hl Hg. rewrite existsb_app, Hl. simpl. by rewrite Hg.
Qed.

Lemma fire_not_crashed (c c' : system) (a : action) :
  fire c a = Some c' -> crashed c = false.
Proof. unfold fire. by destruct (crashed c). Qed.





(** Without a [Wait] nothing but starting goroutines is enabled: the
    channel stays open and every [Stop] stays at its send. *)
Lemma no_Wait_exec (sched : list action) (c c' : system) :
  closed c = false ->
  Forall (fun g => g = Stop \/ g = signal) (pool c) ->
  no_Wait sched = true ->
  exec sched c = Some c' ->
  closed c' = false /\ Forall (fun g => g = Stop \/ g = signal) (pool c').
Proof.
  revert c. induction sched as [|a sched IH]; intros c Hopen Hpool Hno.
  - by intros [= <-].
  - simpl in Hno. apply andb_true_iff in Hno as [Ha Hno].
    simpl. destruct (fire c a) as [c1|] eqn:Hfire; [|done]. intros Hexec.
    apply (IH c1); try done.
    + revert Hfire. unfold fire. destruct (crashed c); [done|].
      destruct a as [k|s r|j].
      * by intros [= <-].
      * rewrite Hopen.
        destruct (pool c !! s) as [[| | | |]|]; try done.
        destruct (pool c !! r) as [gr|] eqn:Hr; try done.
        rewrite Forall_lookup in Hpool.
        destruct (Hpool r gr Hr) as [-> | ->]; done.
      * rewrite Hopen. destruct (pool c !! j) as [g|] eqn:Hj; [|done].
        rewrite Forall_lookup in Hpool.
        destruct (Hpool j g Hj) as [-> | ->]; done.
    + revert Hfire. unfold fire. destruct (crashed c); [done|].
      destruct a as [k|s r|j].
      * intros [= <-]. simpl. apply Forall_app. split; [done|].
        apply Forall_singleton. destruct k; [done|by left|by right].
      * rewrite Hopen.
        destruct (pool c !! s) as [[| | | |]|]; try done.
        destruct (pool c !! r) as [gr|] eqn:Hr; try done.
        rewrite Forall_lookup in Hpool.
        destruct (Hpool r gr Hr) as [-> | ->]; done.
      * rewrite Hopen. destruct (pool c !! j) as [g|] eqn:Hj; [|done].
        rewrite Forall_lookup in Hpool.
        destruct (Hpool j g Hj) as [-> | ->]; done.
Qed.








